(** * XD swarm core: piece progress tracker and swarm coordinator

    A shallow embedding of [xd/lib/bittorrent/swarm/torrent.go].

    - Go's [uint32] values are integers of [Z] kept in [0, 2^32) with the
      wrap-around written out ([u32]).
    - A byte slice is a [list Z]; reading or writing a slice out of range
      panics in Go, which the embedding makes explicit ([Panic]).
    - Loops whose termination is not structural take fuel; running out of
      fuel is the third outcome ([OutOfFuel]). *)

From stdpp Require Import base numbers list gmap strings.

Local Open Scope Z_scope.

(** ** Outcomes of a Go call *)

Inductive result (A : Type) : Type :=
  | Ret (a : A)
  | Panic
  | OutOfFuel.
Arguments Ret {A} a.
Arguments Panic {A}.
Arguments OutOfFuel {A}.

#[global] Instance result_ret : MRet result := @Ret.

#[global] Instance result_bind : MBind result := λ A B k r,
  match r with
  | Ret a => k a
  | Panic => Panic
  | OutOfFuel => OutOfFuel
  end.

(** ** Machine integers and slices *)

Definition u32 (x : Z) : Z := x mod 2 ^ 32.

(** [len(s)] *)
Definition len {A : Type} (s : list A) : Z := Z.of_nat (length s).

(** [s[i]] for an unsigned index *)
Definition index {A : Type} (s : list A) (i : Z) : result A :=
  match s !! Z.to_nat i with
  | Some x => Ret x
  | None => Panic
  end.

(** [s[i] = v] for an unsigned index *)
Definition store {A : Type} (s : list A) (i : Z) (v : A) : result (list A) :=
  if bool_decide (i < len s) then Ret (<[Z.to_nat i := v]> s) else Panic.

(** [s[low:]] for an unsigned bound *)
Definition slice_from {A : Type} (s : list A) (low : Z) : result (list A) :=
  if bool_decide (low <= len s) then Ret (drop (Z.to_nat low) s) else Panic.

(** [copy(dst, src)]: copies [min(len(dst), len(src))] elements *)
Definition copy {A : Type} (dst src : list A) : list A :=
  take (length dst) src ++ drop (length src) dst.

(** ** Constants of the package *)

Definition BlockSize : Z := 1024 * 16.

Definition Missing : Z := 0.
Definition Pending : Z := 1.
Definition Obtained : Z := 2.

(** ** [common.PieceData] and [cachedPiece] *)

Record PieceData : Type := mkPieceData {
  Index : Z;
  Begin : Z;
  Data : list Z;
}.

Record cachedPiece : Type := mkCachedPiece {
  piece : PieceData;
  progress : list Z;
}.

Definition set_progress (p : cachedPiece) (pr : list Z) : cachedPiece :=
  {| piece := piece p; progress := pr |}.

Definition set_data (p : cachedPiece) (d : list Z) : cachedPiece :=
  {| piece := {| Index := Index (piece p); Begin := Begin (piece p); Data := d |};
     progress := progress p |}.

(** *** [nextOffset] *)

(** The inner loop [for i < BlockSize { p.progress[idx+i] = Pending; i++ }]. *)
Fixpoint mark_loop (fuel : nat) (pr : list Z) (idx i : Z) : result (list Z) :=
  match fuel with
  | O => OutOfFuel
  | S fuel' =>
      if bool_decide (i < BlockSize) then
        pr' ← store pr (u32 (idx + i)) Pending;
        mark_loop fuel' pr' idx (u32 (i + 1))
      else Ret pr
  end.

Definition mark_fuel : nat := S (Z.to_nat BlockSize).

(** The outer loop [for idx < l { ... idx += BlockSize }] with the code after
    it.  The results are the named results [has] and [idx]; the [return]
    inside the loop is a bare return. *)
Fixpoint scan_loop (fuel : nat) (pr : list Z) (l : Z) (has : bool) (idx : Z)
  : result (bool * Z * list Z) :=
  match fuel with
  | O => OutOfFuel
  | S fuel' =>
      if bool_decide (idx < l) then
        b ← index pr idx;
        if bool_decide (b = Missing) then
          pr' ← mark_loop mark_fuel pr idx 0;
          Ret (has, idx, pr')
        else scan_loop fuel' pr l has (u32 (idx + BlockSize))
      else
        let has' := if bool_decide (idx < l) then true else has in
        Ret (has', idx, pr)
  end.

Definition scan_fuel : nat := S (Z.to_nat (2 ^ 32 / BlockSize)).

Definition nextOffset (p : cachedPiece) : result (bool * Z * cachedPiece) :=
  let l := u32 (len (progress p)) in
  '(has, idx, pr') ← scan_loop scan_fuel (progress p) l false 0;
  Ret (has, idx, set_progress p pr').

(** *** [done] *)

Fixpoint done_loop (pr : list Z) : bool :=
  match pr with
  | [] => true
  | b :: pr' => if bool_decide (b ≠ Obtained) then false else done_loop pr'
  end.

Definition done (p : cachedPiece) : bool := done_loop (progress p).

(** *** [put] *)

(** [for idx := range data { p.progress[uint32(idx)+offset] = Obtained }] *)
Fixpoint put_loop (n : nat) (pr : list Z) (offset idx : Z) : result (list Z) :=
  match n with
  | O => Ret pr
  | S n' =>
      pr' ← store pr (u32 (u32 idx + offset)) Obtained;
      put_loop n' pr' offset (idx + 1)
  end.

Definition put (p : cachedPiece) (offset : Z) (data : list Z) : result cachedPiece :=
  let l := u32 (len (progress p)) in
  if bool_decide (u32 (offset + u32 (len data)) <= l) then
    dst ← slice_from (Data (piece p)) offset;
    let d' := take (Z.to_nat offset) (Data (piece p)) ++ copy dst data in
    pr' ← put_loop (length data) (progress p) offset 0;
    Ret (set_progress (set_data p d') pr')
  else Ret p.

(** *** [cancel] *)

Fixpoint cancel_loop (fuel : nat) (pr : list Z) (offset length : Z) : result (list Z) :=
  match fuel with
  | O => OutOfFuel
  | S fuel' =>
      if bool_decide (length > 0) then
        let length' := u32 (length - 1) in
        pr' ← store pr (u32 (offset + length')) Missing;
        cancel_loop fuel' pr' offset length'
      else Ret pr
  end.

Definition cancel (p : cachedPiece) (offset length : Z) : result cachedPiece :=
  let l := u32 (len (progress p)) in
  if bool_decide (u32 (offset + length) <= l) then
    pr' ← cancel_loop (S (Z.to_nat length)) (progress p) offset length;
    Ret (set_progress p pr')
  else Ret p.

(** ** Specification vocabulary for the tracker *)

(** The status array with the entries at positions [a <= j < b] replaced by
    [v]; positions outside the array are ignored. *)
Definition set_range (a b : Z) (v : Z) (pr : list Z) : list Z :=
  imap (λ j x, if bool_decide (a <= Z.of_nat j < b) then v else x) pr.

(** [o] is the offset of a block-aligned stride of [pr] whose first byte is
    [Missing]. *)
Definition stride_missing (pr : list Z) (o : Z) : Prop :=
  (BlockSize | o) ∧ 0 <= o ∧ pr !! Z.to_nat o = Some Missing.

Definition first_missing (pr : list Z) (o : Z) : Prop :=
  stride_missing pr o ∧ ∀ o', o' < o → ¬ stride_missing pr o'.

(** The data model of the tracker: one status byte per byte of the piece
    buffer, and offsets into it are [uint32]. *)
Definition wf (p : cachedPiece) : Prop :=
  length (Data (piece p)) = length (progress p) ∧ len (progress p) < 2 ^ 32.

(** [n] consecutive calls of [nextOffset], as a block requester makes them *)
Fixpoint nextOffset_times (n : nat) (p : cachedPiece) : result cachedPiece :=
  match n with
  | O => Ret p
  | S n' => '(_, _, p') ← nextOffset p; nextOffset_times n' p'
  end.

(** What an in-range [put] leaves in the piece buffer. *)
Definition write_at (d : list Z) (offset : Z) (data : list Z) : list Z :=
  take (Z.to_nat offset) d ++ data ++ drop (Z.to_nat offset + length data) d.

(** A sequence of [put] calls, each given as its offset and its data. *)
Fixpoint put_all (puts : list (Z * list Z)) (p : cachedPiece) : result cachedPiece :=
  match puts with
  | [] => Ret p
  | (offset, data) :: puts' => p' ← put p offset data; put_all puts' p'
  end.

(** Byte [j] lies in the range of one of the [put] calls. *)
Definition covered (puts : list (Z * list Z)) (j : Z) : Prop :=
  Exists (λ '(offset, data), offset <= j < offset + len data) puts.

#[global] Instance covered_dec puts j : Decision (covered puts j).
Proof. apply Exists_dec. intros [offset data]. apply _. Defined.

(** Every [put] call of the sequence is within the [n] bytes of the piece. *)
Definition in_bounds (n : Z) (puts : list (Z * list Z)) : Prop :=
  Forall (λ '(offset, data), 0 <= offset ∧ offset + len data <= n) puts.

(** A piece of [n] bytes on which nothing has been requested or received. *)
Definition blank_piece (n : nat) : cachedPiece :=
  {| piece := {| Index := 0; Begin := 0; Data := replicate n 0 |};
     progress := replicate n Missing |}.

(** A piece of one block whose only stride has been claimed. *)
Definition claimed_block : cachedPiece :=
  {| piece := {| Index := 0; Begin := 0; Data := replicate (Z.to_nat BlockSize) 0 |};
     progress := replicate (Z.to_nat BlockSize) Pending |}.

(** ** The collaborators of the swarm coordinator *)

(** Go's [error]; [None] is [nil]. *)
Definition error : Type := option string.

(** [net.Addr], through its two methods [Network()] and [String()] *)
Record Addr : Type := mkAddr {
  addr_network : string;
  addr_string : string;
}.

Definition PeerID : Type := list Z.
Definition Infohash : Type := list Z.

(** [common.PieceRequest] *)
Module PieceRequest.
Record t : Type := mk {
  Index : Z;
  Begin : Z;
  Length : Z;
}.
End PieceRequest.

(** [bittorrent.Handshake] *)
Module Handshake.
Record t : Type := mk {
  Infohash : Infohash;
  PeerID : PeerID;
}.
End Handshake.

(** [tracker.Request] *)
Module Request.
Record t : Type := mk {
  Infohash : Infohash;
  PeerID : PeerID;
  IP : Addr;
  Port : Z;
  Event : string;
  NumWant : Z;
  Left : Z;
  Compact : bool;
}.
End Request.

(** Modelled from the spec: [common.NewWireMessage] and the message types
    of [xd/lib/common], which are not part of this file. A wire message is
    a generic typed message; the piece response is the one of type "piece". *)
Inductive WireMessageType : Type :=
  | Piece
  | BitField.

Record WireMessage : Type := NewWireMessage {
  msg_type : WireMessageType;
  msg_payload : list Z;
}.

(** Modelled from the spec: [PeerConn] ([makePeerConn]), which is not part
    of this file, is built from a raw connection and the remote peer id. *)
Record PeerConn (Conn : Type) : Type := makePeerConn {
  pc_c : Conn;
  pc_id : PeerID;
}.
Arguments makePeerConn {Conn} pc_c pc_id.
Arguments pc_c {Conn} p.
Arguments pc_id {Conn} p.

(** What the coordinator does to the outside, in the order it does it. *)
Inductive Event (Conn : Type) : Type :=
  | Dialed (network address : string)
  | ConnClosed (c : Conn)
  | PeerStarted (pc : PeerConn Conn)
  | PeerSent (pc : PeerConn Conn) (msg : WireMessage)
  | PeerClosed (pc : PeerConn Conn)
  | Spawned (a : Addr) (id : PeerID).
Arguments Dialed {Conn} network address.
Arguments ConnClosed {Conn} c.
Arguments PeerStarted {Conn} pc.
Arguments PeerSent {Conn} pc msg.
Arguments PeerClosed {Conn} pc.
Arguments Spawned {Conn} a id.

(** The interfaces the coordinator consumes. [W] is the state of the
    outside world (network, remote peers, disk), threaded through the
    calls that can change it. *)

(** [network.Network] *)
Class Network (W Conn : Type) : Type := {
  Net_Addr : Addr;
  Net_Dial : string → string → W → W * (Conn + string);
}.

(** [storage.Torrent] *)
Class Storage (W : Type) : Type := {
  st_Infohash : W → Infohash;
  st_Completed : W → bool;
  st_BitfieldMessage : W → WireMessage;
  st_DownloadRemaining : W → Z;
  st_GetPiece : PieceRequest.t → W → option PieceData;
}.

(** [Send] and [Recv] of [bittorrent.Handshake] on a raw connection;
    [Recv] overwrites the handshake it is called on. *)
Class HandshakeIO (W Conn : Type) : Type := {
  Handshake_Send : Handshake.t → Conn → W → W * error;
  Handshake_Recv : Handshake.t → Conn → W → W * Handshake.t * error;
}.

(** [tracker.Announcer], with the peers of its response *)
Class Announcer (W Tracker Peer : Type) : Type := {
  tr_Announce : Tracker → Request.t → W → W * (list Peer + string);
  peer_Resolve : Peer → Addr + string;
  peer_ID : Peer → PeerID;
}.

(** ** [Torrent] *)

Record Torrent (W Conn : Type) : Type := mkTorrent {
  world : W;
  id : PeerID;
  conns : gmap string bool;
  trace : list (Event Conn);
}.
Arguments mkTorrent {W Conn} world id conns trace.
Arguments world {W Conn} t.
Arguments id {W Conn} t.
Arguments conns {W Conn} t.
Arguments trace {W Conn} t.

(** An inbound piece request: the connection it came from and the request *)
Record pieceEvent (Conn : Type) : Type := mkPieceEvent {
  ev_c : PeerConn Conn;
  ev_r : PieceRequest.t;
}.
Arguments mkPieceEvent {Conn} ev_c ev_r.
Arguments ev_c {Conn} p.
Arguments ev_r {Conn} p.

(** [binary.BigEndian.PutUint32(b, v)] *)
Definition byte (v : Z) : Z := v mod 256.

Definition PutUint32 (b : list Z) (v : Z) : result (list Z) :=
  _ ← index b 3;
  b ← store b 0 (byte (Z.shiftr v 24));
  b ← store b 1 (byte (Z.shiftr v 16));
  b ← store b 2 (byte (Z.shiftr v 8));
  store b 3 (byte v).

(** [f(s[low:])], where [f] writes through the slice into [s] *)
Definition through {A : Type} (s : list A) (low : Z)
    (f : list A → result (list A)) : result (list A) :=
  sub ← slice_from s low;
  sub' ← f sub;
  Ret (take (Z.to_nat low) s ++ sub').

(** The four bytes of [v], most significant first *)
Definition be32 (v : Z) : list Z :=
  [byte (Z.shiftr v 24); byte (Z.shiftr v 16); byte (Z.shiftr v 8); byte v].

(** The number whose big-endian bytes are [bs] *)
Definition be_value (bs : list Z) : Z :=
  foldl (λ acc b, acc * 256 + b) 0 bs.

Section Swarm.
Context {W Conn Tracker Peer : Type}.
Context `{!Network W Conn, !Storage W, !HandshakeIO W Conn,
          !Announcer W Tracker Peer}.

Implicit Types (t : Torrent W Conn) (a : Addr).

Definition with_world (w : W) t : Torrent W Conn :=
  mkTorrent w (id t) (conns t) (trace t).

Definition with_conns (m : gmap string bool) t : Torrent W Conn :=
  mkTorrent (world t) (id t) m (trace t).

Definition emit (e : Event Conn) t : Torrent W Conn :=
  mkTorrent (world t) (id t) (conns t) (trace t ++ [e]).

Definition Done t : bool := st_Completed (world t).

Definition HasConn a t : bool :=
  bool_decide (is_Some (conns t !! addr_string a)).

(** [c.Send(t.Bitfield().ToWireMessage())] *)
Definition onNewPeer (c : PeerConn Conn) t : Torrent W Conn :=
  emit (PeerSent c (st_BitfieldMessage (world t))) t.

Definition AddPeer a (pid : PeerID) t : Torrent W Conn * error :=
  let '(w, dialed) := Net_Dial (addr_network a) (addr_string a) (world t) in
  let t := emit (Dialed (addr_network a) (addr_string a)) (with_world w t) in
  match dialed with
  | inr e => (t, Some e)
  | inl c =>
      let ih := st_Infohash (world t) in
      let h := Handshake.mk ih (id t) in
      let '(w, err) := Handshake_Send h c (world t) in
      let t := with_world w t in
      match err with
      | None =>
          let '(w, h, err) := Handshake_Recv h c (world t) in
          let t := with_world w t in
          match err with
          | None =>
              if bool_decide (ih = Handshake.Infohash h) then
                let pc := makePeerConn c (Handshake.PeerID h) in
                let t := emit (PeerStarted pc) t in
                let t := onNewPeer pc t in
                let t := with_conns (<[addr_string a := true]> (conns t)) t in
                (t, None)
              else (emit (ConnClosed c) t, err)
          | Some _ => (emit (ConnClosed c) t, err)
          end
      | Some _ => (emit (ConnClosed c) t, err)
      end
  end.

(** The loop of [PersistPeer]: [for !t.Done() { ... }] *)
Fixpoint PersistPeer_loop (fuel : nat) a (pid : PeerID) (triesLeft : Z) t
  : result (Torrent W Conn) :=
  match fuel with
  | O => OutOfFuel
  | S fuel' =>
      if negb (Done t) then
        let '(t, err) := AddPeer a pid t in
        match err with
        | Some _ =>
            let triesLeft := triesLeft - 1 in
            if bool_decide (triesLeft = 0) then Ret t
            else PersistPeer_loop fuel' a pid triesLeft t
        | None => Ret t
        end
      else Ret t
  end.

Definition PersistPeer a (pid : PeerID) t : result (Torrent W Conn) :=
  PersistPeer_loop 10 a pid 10 t.

(** The body of [for _, p := range resp.Peers]; [go t.PersistPeer(a, p.ID)]
    is recorded as [Spawned]. *)
Fixpoint Announce_peers (peers : list Peer) t : Torrent W Conn :=
  match peers with
  | [] => t
  | p :: peers' =>
      match peer_Resolve p with
      | inl a =>
          if bool_decide (addr_string a = addr_string Net_Addr) || HasConn a t
          then Announce_peers peers' t
          else
            let t := with_conns (<[addr_string a := false]> (conns t)) t in
            let t := emit (Spawned a (peer_ID p)) t in
            Announce_peers peers' t
      | inr _ => Announce_peers peers' t
      end
  end.

Definition Announce (tr : Tracker) (event : string) t : Torrent W Conn :=
  let req :=
    Request.mk (st_Infohash (world t)) (id t) Net_Addr 6881 event 10
               (st_DownloadRemaining (world t)) true in
  let '(w, resp) := tr_Announce tr req (world t) in
  let t := with_world w t in
  match resp with
  | inl peers => Announce_peers peers t
  | inr _ => t
  end.

(** One turn of the loop of [Run], for the event [ev] received from the
    channel. *)
Definition serve (ev : pieceEvent Conn) t : result (Torrent W Conn) :=
  let r := ev_r ev in
  if bool_decide (PieceRequest.Length r > 0) then
    match st_GetPiece r (world t) with
    | None => Ret (emit (PeerClosed (ev_c ev)) t)
    | Some p =>
        let dl := length (Data p) in
        let d := replicate (8 + dl) 0 in
        d ← PutUint32 d (Index p);
        d ← through d 4 (λ s, PutUint32 s (Begin p));
        d ← through d 8 (λ s, Ret (copy s (Data p)));
        let msg := NewWireMessage Piece d in
        Ret (emit (PeerSent (ev_c ev) msg) t)
    end
  else Ret (emit (PeerClosed (ev_c ev)) t).

(** [Run] on a channel that delivers the events [ch] and is then closed. *)
Fixpoint Run (ch : list (pieceEvent Conn)) t : result (Torrent W Conn) :=
  match ch with
  | [] => Ret t
  | ev :: ch' => t ← serve ev t; Run ch' t
  end.

(** The state after [k] calls of [AddPeer] in a row. *)
Fixpoint after_attempts (k : nat) a (pid : PeerID) t : Torrent W Conn :=
  match k with
  | O => t
  | S k' => after_attempts k' a pid (AddPeer a pid t).1
  end.

(** The first [k] turns of the loop of [PersistPeer] find the torrent not
    done and their call of [AddPeer] returns an error. *)
Fixpoint all_fail (k : nat) a (pid : PeerID) t : Prop :=
  match k with
  | O => True
  | S k' =>
      Done t = false ∧ (AddPeer a pid t).2 ≠ None ∧
      all_fail k' a pid (AddPeer a pid t).1
  end.

(** The dial attempts recorded in a trace. *)
Definition dials (tr : list (Event Conn)) : list string :=
  omap (λ e, match e with Dialed _ address => Some address | _ => None end) tr.

(** The addresses for which a connection attempt was started. *)
Definition spawned (tr : list (Event Conn)) : list string :=
  omap (λ e, match e with Spawned a _ => Some (addr_string a) | _ => None end) tr.
(** What one pass over the candidates of a tracker response does: the
    events [evs] it adds are the connection attempts it starts. *)
Definition announced (peers : list Peer) t t' (evs : list (Event Conn)) : Prop :=
  trace t' = trace t ++ evs ∧
  dials evs = [] ∧
  length (spawned evs) = length evs ∧
  NoDup (spawned evs) ∧
  (∀ k, k ∈ spawned evs →
     k ≠ addr_string Net_Addr ∧ conns t !! k = None ∧ conns t' !! k = Some false) ∧
  (∀ k, k ∉ spawned evs → conns t' !! k = conns t !! k) ∧
  (∀ p a, p ∈ peers → peer_Resolve p = inl a →
     addr_string a ≠ addr_string Net_Addr → conns t !! addr_string a = None →
     addr_string a ∈ spawned evs).

End Swarm.

(** ** A small world for the examples

    One tracker that returns four candidates; a network on which the
    address [dead.i2p] refuses connections and every other address accepts
    them; a remote peer at [b.i2p] that answers the handshake with the
    infohash of the torrent, and others that answer with another one; a
    storage that holds the four bytes of piece 3. *)
Module Demo.
Local Open Scope string_scope.

#[global] Instance net : Network unit nat := {|
  Net_Addr := mkAddr "i2p" "local.i2p";
  Net_Dial := λ _ address w,
    if bool_decide (address = "dead.i2p") then (w, inr "refused")
    else if bool_decide (address = "b.i2p") then (w, inl 2%nat)
    else (w, inl 1%nat);
|}.

#[global] Instance st : Storage unit := {|
  st_Infohash := λ _, [1; 1; 1];
  st_Completed := λ _, false;
  st_BitfieldMessage := λ _, NewWireMessage BitField [];
  st_DownloadRemaining := λ _, 4;
  st_GetPiece := λ r _,
    if bool_decide (PieceRequest.Index r = 3 ∧ PieceRequest.Begin r = 0 ∧
                    PieceRequest.Length r = 4)
    then Some (mkPieceData 3 0 [1; 2; 3; 4]) else None;
|}.

#[global] Instance hs : HandshakeIO unit nat := {|
  Handshake_Send := λ _ _ w, (w, None);
  Handshake_Recv := λ _ c w,
    if bool_decide (c = 2%nat) then (w, Handshake.mk [1; 1; 1] [8], None)
    else (w, Handshake.mk [9; 9; 9] [7], None);
|}.

#[global] Instance tr : Announcer unit unit string := {|
  tr_Announce := λ _ _ w, (w, inl ["a.i2p"; "local.i2p"; "a.i2p"; "b.i2p"]);
  peer_Resolve := λ p, inl (mkAddr "i2p" p);
  peer_ID := λ _, [];
|}.

(** A torrent with no connection yet *)
Definition t0 : Torrent unit nat := mkTorrent () [5] ∅ [].

(** A torrent that already knows [a.i2p] *)
Definition t1 : Torrent unit nat := mkTorrent () [5] {[ "a.i2p" := true ]} [].

Definition dead : Addr := mkAddr "i2p" "dead.i2p".
Definition other_swarm : Addr := mkAddr "i2p" "a.i2p".
Definition same_swarm : Addr := mkAddr "i2p" "b.i2p".

Definition peer : PeerConn nat := makePeerConn 1%nat [7].
End Demo.

(** ** More pieces for the examples *)

(** A piece of [n] bytes that were all claimed and whose first byte was
    cancelled since: the other bytes are still [Pending]. *)
Definition cancelled_first (n : nat) : cachedPiece :=
  {| piece := {| Index := 0; Begin := 0; Data := replicate n 0 |};
     progress := <[0%nat := Missing]> (replicate n Pending) |}.

(** Three bytes, received or requested, none of them [Missing]. *)
Definition half_done_piece : cachedPiece :=
  {| piece := {| Index := 1; Begin := 0; Data := [7; 0; 0] |};
     progress := [Obtained; Pending; Pending] |}.

(** Two bytes, both received. *)
Definition done_piece : cachedPiece :=
  {| piece := {| Index := 2; Begin := 0; Data := [4; 4] |};
     progress := [Obtained; Obtained] |}.

(** A piece of [n] bytes that were all received. *)
Definition full_piece (n : nat) : cachedPiece :=
  {| piece := {| Index := 0; Begin := 0; Data := replicate n 0 |};
     progress := replicate n Obtained |}.

(** Two whole blocks on which nothing was requested. *)
Definition two_blocks : cachedPiece := blank_piece (Z.to_nat (2 * BlockSize)).

(** ** The rest of [Torrent] *)

(** The write side of [storage.Torrent] *)
Class StorageWrite (W : Type) : Type := {
  st_PutPiece : PieceData → W → W * error;
  st_Flush : W → W;
}.

(** [Stats()] of a [PeerConn], with [S] for [PeerConnStats] *)
Class PeerStats (Conn S : Type) : Type := {
  pc_Stats : PeerConn Conn → S;
}.

(** The fields of [Torrent] that the model above leaves out: the trackers,
    the announce ticker ([None] is [nil], [Some true] a running ticker,
    [Some false] a stopped one), the number of goroutines started on
    [pollAnnounce], the channel of piece requests ([None] is [nil],
    [Some q] the channel with the events [q] sent and not yet received),
    and the pending pieces with the peer that fetches each. *)
Record Swarm (W Conn Tracker : Type) : Type := mkSwarm {
  tor : Torrent W Conn;
  Trackers : list Tracker;
  announcer : option bool;
  pollers : nat;
  piece_chan : option (list (pieceEvent Conn));
  pending : gmap Z (PeerConn Conn);
}.
Arguments mkSwarm {W Conn Tracker} tor Trackers announcer pollers piece_chan pending.
Arguments tor {W Conn Tracker} s.
Arguments Trackers {W Conn Tracker} s.
Arguments announcer {W Conn Tracker} s.
Arguments pollers {W Conn Tracker} s.
Arguments piece_chan {W Conn Tracker} s.
Arguments pending {W Conn Tracker} s.

(** [TorrentStatus] *)
Record TorrentStatus (S : Type) : Type := mkTorrentStatus {
  Peers : list S;
}.
Arguments mkTorrentStatus {S} Peers.
Arguments Peers {S} t.

Section SwarmRest.
Context {W Conn Tracker Peer S : Type}.
Context `{!Network W Conn, !Storage W, !HandshakeIO W Conn,
          !Announcer W Tracker Peer, !StorageWrite W, !PeerStats Conn S}.

Implicit Types (s : Swarm W Conn Tracker) (t : Torrent W Conn).

Definition with_tor t s : Swarm W Conn Tracker :=
  mkSwarm t (Trackers s) (announcer s) (pollers s) (piece_chan s) (pending s).

Definition with_pending (m : gmap Z (PeerConn Conn)) s : Swarm W Conn Tracker :=
  mkSwarm (tor s) (Trackers s) (announcer s) (pollers s) (piece_chan s) m.

Definition with_piece_chan (ch : option (list (pieceEvent Conn))) s
  : Swarm W Conn Tracker :=
  mkSwarm (tor s) (Trackers s) (announcer s) (pollers s) ch (pending s).

(** The peers are collected by ranging over the map of pending pieces, in
    the order the map yields them. *)
Definition GetStatus s : TorrentStatus S :=
  mkTorrentStatus ((λ kv, pc_Stats kv.2) <$> map_to_list (pending s)).




(** [close] of a nil channel panics. *)
Definition Close s : result (Swarm W Conn Tracker) :=
  let chnl := piece_chan s in
  let s := with_piece_chan None s in
  match chnl with
  | None => Panic
  | Some _ => Ret (with_tor (with_world (st_Flush (world (tor s))) (tor s)) s)
  end.

Definition cancelPiece (idx : Z) s : Swarm W Conn Tracker :=
  with_pending (delete idx (pending s)) s.

Definition markPieceInProgress (idx : Z) (c : PeerConn Conn) s : Swarm W Conn Tracker :=
  with_pending (<[idx := c]> (pending s)) s.

Definition pieceRequested (idx : Z) s : bool :=
  bool_decide (is_Some (pending s !! idx)).

Definition storePiece (p : PieceData) s : Swarm W Conn Tracker :=
  let '(w, err) := st_PutPiece p (world (tor s)) in
  let s := with_tor (with_world w (tor s)) s in
  let s := cancelPiece (Index p) s in
  with_tor (with_world (st_Flush (world (tor s))) (tor s)) s.

Definition onPieceRequest (c : PeerConn Conn) (req : PieceRequest.t) s
  : Swarm W Conn Tracker :=
  match piece_chan s with
  | Some q => with_piece_chan (Some (q ++ [mkPieceEvent c req])) s
  | None => s
  end.

(** What [Run] does for one request, given the world it reads the storage
    in. *)
Definition answer (w : W) (ev : pieceEvent Conn) : Event Conn :=
  if bool_decide (PieceRequest.Length (ev_r ev) > 0) then
    match st_GetPiece (ev_r ev) w with
    | Some p =>
        PeerSent (ev_c ev)
          (NewWireMessage Piece (be32 (Index p) ++ be32 (Begin p) ++ Data p))
    | None => PeerClosed (ev_c ev)
    end
  else PeerClosed (ev_c ev).
(** What a number of announces in a row add: connection attempts for
    pairwise distinct addresses that were unknown, now reserved. *)
Definition attempts_for_new_addresses t t' (evs : list (Event Conn)) : Prop :=
  trace t' = trace t ++ evs ∧ id t' = id t ∧
  dials evs = [] ∧ length (spawned evs) = length evs ∧
  NoDup (spawned evs) ∧
  (∀ k, k ∈ spawned evs →
     k ≠ addr_string Net_Addr ∧ conns t !! k = None ∧ conns t' !! k = Some false) ∧
  (∀ k, k ∉ spawned evs → conns t' !! k = conns t !! k).

End SwarmRest.

Module DemoRest.
Local Open Scope string_scope.

(** A disk that refuses every write and counts nothing. *)
#[global] Instance stw : StorageWrite unit := {|
  st_PutPiece := λ _ w, (w, Some "disk full");
  st_Flush := λ w, w;
|}.

(** The statistics of a peer are its peer id. *)
#[global] Instance stats : PeerStats nat PeerID := {|
  pc_Stats := λ pc, pc_id pc;
|}.

(** A running swarm with one tracker, piece 3 pending on [Demo.peer]. *)
Definition s0 : Swarm unit nat unit :=
  mkSwarm Demo.t0 [()] (Some true) 1 (Some []) {[ 3 := Demo.peer ]}.
End DemoRest.

(** ** Facts on machine integers and slices *)

Lemma u32_small x : 0 <= x < 2 ^ 32 → u32 x = x.
Proof. intros. unfold u32. by apply Z.mod_small. Qed.

Lemma u32_range x : 0 <= u32 x < 2 ^ 32.
Proof. unfold u32. apply Z.mod_pos_bound. lia. Qed.

Lemma BlockSize_val : BlockSize = 16384.
Proof. reflexivity. Qed.

Lemma len_nonneg {A} (s : list A) : 0 <= len s.
Proof. unfold len. lia. Qed.

Lemma store_Ret {A} (s : list A) i v :
  0 <= i < len s → store s i v = Ret (<[Z.to_nat i := v]> s).
Proof. intros. unfold store. rewrite bool_decide_eq_true_2; [done | lia]. Qed.

Lemma store_Panic {A} (s : list A) i v : len s <= i → store s i v = Panic.
Proof. intros. unfold store. rewrite bool_decide_eq_false_2; [done | lia]. Qed.

Lemma len_insert {A} (s : list A) i v : len (<[i := v]> s) = len s.
Proof. unfold len. by rewrite length_insert. Qed.

Lemma set_range_length a b v pr : length (set_range a b v pr) = length pr.
Proof. unfold set_range. apply length_imap. Qed.

Lemma set_range_lookup a b v pr (j : nat) :
  set_range a b v pr !! j =
  (λ x, if bool_decide (a <= Z.of_nat j < b) then v else x) <$> pr !! j.
Proof. unfold set_range. by rewrite list_lookup_imap. Qed.

Lemma set_range_lookup_in a b v pr (j : nat) :
  a <= Z.of_nat j < b → (j < length pr)%nat → set_range a b v pr !! j = Some v.
Proof.
  intros Hj Hlt. rewrite set_range_lookup.
  destruct (lookup_lt_is_Some_2 pr j Hlt) as [x ->]. simpl.
  by rewrite bool_decide_eq_true_2.
Qed.

Lemma set_range_lookup_out a b v pr (j : nat) :
  ¬ (a <= Z.of_nat j < b) → set_range a b v pr !! j = pr !! j.
Proof.
  intros Hj. rewrite set_range_lookup.
  destruct (pr !! j); simpl; [| done]. by rewrite bool_decide_eq_false_2.
Qed.

Lemma set_range_empty a b v pr : b <= a → set_range a b v pr = pr.
Proof.
  intros. apply list_eq. intros j. apply set_range_lookup_out. lia.
Qed.

Lemma set_range_step_lo a b v pr :
  0 <= a < b →
  set_range (a + 1) b v (<[Z.to_nat a := v]> pr) = set_range a b v pr.
Proof.
  intros Ha. apply list_eq. intros j. rewrite !set_range_lookup.
  destruct (decide (j = Z.to_nat a)) as [-> | Hne].
  - destruct (decide (Z.to_nat a < length pr)%nat) as [Hlt | Hge].
    + rewrite list_lookup_insert_eq by done.
      destruct (lookup_lt_is_Some_2 pr _ Hlt) as [x ->]. simpl.
      rewrite bool_decide_eq_false_2 by lia.
      by rewrite bool_decide_eq_true_2 by lia.
    + rewrite list_insert_ge by lia.
      by rewrite (lookup_ge_None_2 pr) by lia.
  - rewrite list_lookup_insert_ne by done.
    destruct (pr !! j); simpl; [| done].
    repeat case_bool_decide; (done || lia).
Qed.

Lemma set_range_step_hi a b v pr :
  0 <= a < b →
  set_range a (b - 1) v (<[Z.to_nat (b - 1) := v]> pr) = set_range a b v pr.
Proof.
  intros Ha. apply list_eq. intros j. rewrite !set_range_lookup.
  destruct (decide (j = Z.to_nat (b - 1))) as [-> | Hne].
  - destruct (decide (Z.to_nat (b - 1) < length pr)%nat) as [Hlt | Hge].
    + rewrite list_lookup_insert_eq by done.
      destruct (lookup_lt_is_Some_2 pr _ Hlt) as [x ->]. simpl.
      rewrite bool_decide_eq_false_2 by lia.
      by rewrite bool_decide_eq_true_2 by lia.
    + rewrite list_insert_ge by lia.
      by rewrite (lookup_ge_None_2 pr) by lia.
  - rewrite list_lookup_insert_ne by done.
    destruct (pr !! j); simpl; [| done].
    repeat case_bool_decide; (done || lia).
Qed.

Lemma bind_Ret {A B} (a : A) (k : A → result B) : (Ret a ≫= k) = k a.
Proof. reflexivity. Qed.

Lemma bind_Panic {A B} (k : A → result B) : (Panic ≫= k) = Panic.
Proof. reflexivity. Qed.

Lemma index_Ret {A} (s : list A) i x : s !! Z.to_nat i = Some x → index s i = Ret x.
Proof. intros H. unfold index. by rewrite H. Qed.

Lemma lookup_in_range {A} (s : list A) i : 0 <= i < len s → is_Some (s !! Z.to_nat i).
Proof. intros. apply lookup_lt_is_Some_2. unfold len in *. lia. Qed.

(** ** The loops of the tracker *)

Lemma mark_loop_ok fuel : ∀ pr idx i,
  0 <= idx → 0 <= i <= BlockSize →
  idx + BlockSize <= len pr → idx + BlockSize <= 2 ^ 32 →
  (Z.to_nat (BlockSize - i) < fuel)%nat →
  mark_loop fuel pr idx i = Ret (set_range (idx + i) (idx + BlockSize) Pending pr).
Proof.
  pose proof BlockSize_val as HB.
  induction fuel as [| fuel IH]; intros pr idx i Hidx Hi Hlen Hw Hfuel; [lia |].
  cbn [mark_loop]. case_bool_decide as Hlt.
  - rewrite (u32_small (idx + i)) by lia.
    rewrite store_Ret by lia. rewrite bind_Ret.
    rewrite (u32_small (i + 1)) by lia.
    rewrite IH; [| lia | lia | by rewrite len_insert | lia | lia].
    f_equal. replace (idx + (i + 1)) with (idx + i + 1) by lia.
    apply set_range_step_lo. lia.
  - f_equal. symmetry. apply set_range_empty. lia.
Qed.

Lemma mark_loop_panic fuel : ∀ pr idx i,
  0 <= idx → 0 <= i → idx + i <= len pr →
  len pr < idx + BlockSize → idx + BlockSize <= 2 ^ 32 →
  (Z.to_nat (len pr - idx - i) < fuel)%nat →
  mark_loop fuel pr idx i = Panic.
Proof.
  pose proof BlockSize_val as HB.
  induction fuel as [| fuel IH]; intros pr idx i Hidx Hi Hlo Hhi Hw Hfuel; [lia |].
  cbn [mark_loop]. rewrite bool_decide_eq_true_2 by lia.
  rewrite (u32_small (idx + i)) by lia.
  destruct (decide (idx + i < len pr)) as [Hin | Hout].
  - rewrite store_Ret by lia. rewrite bind_Ret.
    rewrite (u32_small (i + 1)) by lia.
    apply IH; rewrite ?len_insert; lia.
  - by rewrite store_Panic by lia.
Qed.

Lemma put_loop_ok n : ∀ pr offset idx,
  0 <= offset → 0 <= idx →
  offset + idx + Z.of_nat n <= len pr → len pr < 2 ^ 32 →
  put_loop n pr offset idx =
    Ret (set_range (offset + idx) (offset + idx + Z.of_nat n) Obtained pr).
Proof.
  induction n as [| n IH]; intros pr offset idx Hoff Hidx Hlen Hw.
  - cbn [put_loop]. f_equal. symmetry. apply set_range_empty. lia.
  - cbn [put_loop]. rewrite (u32_small idx) by lia.
    rewrite (u32_small (idx + offset)) by lia.
    rewrite store_Ret by lia. rewrite bind_Ret.
    rewrite IH; rewrite ?len_insert; try lia.
    f_equal. replace (idx + offset) with (offset + idx) by lia.
    replace (offset + (idx + 1)) with (offset + idx + 1) by lia.
    replace (offset + idx + 1 + Z.of_nat n)
      with (offset + idx + Z.of_nat (S n)) by lia.
    apply set_range_step_lo. lia.
Qed.

Lemma cancel_loop_ok fuel : ∀ pr offset length,
  0 <= offset → 0 <= length →
  offset + length <= len pr → len pr < 2 ^ 32 →
  (Z.to_nat length < fuel)%nat →
  cancel_loop fuel pr offset length =
    Ret (set_range offset (offset + length) Missing pr).
Proof.
  induction fuel as [| fuel IH]; intros pr offset length Hoff Hl Hlen Hw Hfuel; [lia |].
  cbn [cancel_loop]. case_bool_decide as Hpos.
  - cbv zeta. rewrite (u32_small (length - 1)) by lia.
    rewrite (u32_small (offset + (length - 1))) by lia.
    rewrite store_Ret by lia. rewrite bind_Ret.
    rewrite IH; rewrite ?len_insert; try lia.
    f_equal. replace (offset + (length - 1)) with (offset + length - 1) by lia.
    apply set_range_step_hi. lia.
  - f_equal. symmetry. apply set_range_empty. lia.
Qed.

(** The scan skips [n] strides whose first byte is not [Missing] and claims
    the next one. *)
Lemma scan_loop_found (n : nat) : ∀ fuel pr l has idx,
  0 <= idx → idx + Z.of_nat n * BlockSize < l → l <= len pr →
  idx + Z.of_nat n * BlockSize + BlockSize <= 2 ^ 32 →
  (∀ k : nat, (k < n)%nat →
     pr !! Z.to_nat (idx + Z.of_nat k * BlockSize) ≠ Some Missing) →
  pr !! Z.to_nat (idx + Z.of_nat n * BlockSize) = Some Missing →
  (n < fuel)%nat →
  scan_loop fuel pr l has idx =
    (pr' ← mark_loop mark_fuel pr (idx + Z.of_nat n * BlockSize) 0;
     Ret (has, idx + Z.of_nat n * BlockSize, pr')).
Proof.
  pose proof BlockSize_val as HB.
  induction n as [| n IH]; intros fuel pr l has idx Hidx Hlt Hlen Hw Hskip Hhit Hfuel.
  - destruct fuel as [| fuel]; [lia |].
    replace (idx + Z.of_nat 0 * BlockSize) with idx in * by lia.
    cbn [scan_loop]. rewrite bool_decide_eq_true_2 by lia.
    rewrite (index_Ret _ _ _ Hhit), bind_Ret.
    by rewrite bool_decide_eq_true_2.
  - destruct fuel as [| fuel]; [lia |].
    cbn [scan_loop]. rewrite bool_decide_eq_true_2 by lia.
    destruct (lookup_in_range pr idx) as [b Hb]; [lia |].
    rewrite (index_Ret _ _ _ Hb), bind_Ret.
    rewrite bool_decide_eq_false_2; last first.
    { intros ->. apply (Hskip 0%nat); [lia |].
      by replace (idx + Z.of_nat 0 * BlockSize) with idx by lia. }
    rewrite (u32_small (idx + BlockSize)) by lia.
    replace (idx + Z.of_nat (S n) * BlockSize)
      with (idx + BlockSize + Z.of_nat n * BlockSize) in * by lia.
    apply IH; try lia; [| done].
    intros k Hk. specialize (Hskip (S k) ltac:(lia)).
    by replace (idx + Z.of_nat (S k) * BlockSize)
      with (idx + BlockSize + Z.of_nat k * BlockSize) in Hskip by lia.
Qed.

(** The scan skips [n] strides whose first byte is not [Missing] and reaches
    the end of the array. *)
Lemma scan_loop_none (n : nat) : ∀ fuel pr l has idx,
  0 <= idx → l <= len pr →
  (∀ k : nat, (k < n)%nat → idx + Z.of_nat k * BlockSize < l) →
  l <= idx + Z.of_nat n * BlockSize < 2 ^ 32 →
  (∀ k : nat, (k < n)%nat →
     pr !! Z.to_nat (idx + Z.of_nat k * BlockSize) ≠ Some Missing) →
  (n < fuel)%nat →
  scan_loop fuel pr l has idx = Ret (has, idx + Z.of_nat n * BlockSize, pr).
Proof.
  pose proof BlockSize_val as HB.
  induction n as [| n IH]; intros fuel pr l has idx Hidx Hlen Hin He Hskip Hfuel.
  - destruct fuel as [| fuel]; [lia |].
    replace (idx + Z.of_nat 0 * BlockSize) with idx in * by lia.
    cbn [scan_loop]. by rewrite !bool_decide_eq_false_2 by lia.
  - destruct fuel as [| fuel]; [lia |].
    pose proof (Hin 0%nat ltac:(lia)) as H0.
    cbn [scan_loop]. rewrite bool_decide_eq_true_2 by lia.
    destruct (lookup_in_range pr idx) as [b Hb]; [lia |].
    rewrite (index_Ret _ _ _ Hb), bind_Ret.
    rewrite bool_decide_eq_false_2; last first.
    { intros ->. apply (Hskip 0%nat); [lia |].
      by replace (idx + Z.of_nat 0 * BlockSize) with idx by lia. }
    rewrite (u32_small (idx + BlockSize)) by lia.
    replace (idx + Z.of_nat (S n) * BlockSize)
      with (idx + BlockSize + Z.of_nat n * BlockSize) in * by lia.
    apply IH; try lia.
    + intros k Hk. specialize (Hin (S k) ltac:(lia)). lia.
    + intros k Hk. specialize (Hskip (S k) ltac:(lia)).
      by replace (idx + Z.of_nat (S k) * BlockSize)
        with (idx + BlockSize + Z.of_nat k * BlockSize) in Hskip by lia.
Qed.

(** A scan that finds no claimable stride in an array whose length exceeds
    the last stride start representable in 32 bits wraps [idx] to zero and
    starts over: no amount of fuel lets it return. *)
Lemma scan_loop_wraps fuel : ∀ pr l has idx,
  (BlockSize | idx) → 0 <= idx < 2 ^ 32 →
  2 ^ 32 - BlockSize < l → l <= len pr →
  (∀ o, ¬ stride_missing pr o) →
  scan_loop fuel pr l has idx = OutOfFuel.
Proof.
  pose proof BlockSize_val as HB.
  induction fuel as [| fuel IH]; intros pr l has idx Hdiv Hidx Hl Hlen Hnone; [done |].
  assert (idx + BlockSize <= 2 ^ 32) as Hle.
  { destruct Hdiv as [k ->]. lia. }
  cbn [scan_loop]. rewrite bool_decide_eq_true_2 by lia.
  destruct (lookup_in_range pr idx) as [b Hb]; [lia |].
  rewrite (index_Ret _ _ _ Hb), bind_Ret.
  rewrite bool_decide_eq_false_2; last first.
  { intros ->. apply (Hnone idx). repeat split; [done | lia | done]. }
  apply IH; try done.
  - destruct (decide (idx + BlockSize = 2 ^ 32)) as [Heq | Hne].
    + unfold u32. rewrite Heq, Z.mod_same by lia. apply Z.divide_0_r.
    + rewrite u32_small by lia. apply Z.divide_add_r; [done | apply Z.divide_refl].
  - apply u32_range.
Qed.

(** ** [nextOffset] *)

Lemma scan_fuel_val : scan_fuel = S (Z.to_nat 262144).
Proof. unfold scan_fuel. by replace (2 ^ 32 / BlockSize) with 262144 by reflexivity. Qed.

Lemma set_progress_id p : set_progress p (progress p) = p.
Proof. by destruct p. Qed.

Lemma stride_missing_lt pr o : stride_missing pr o → 0 <= o < len pr.
Proof.
  intros (_ & Hpos & Hlook). split; [done |].
  apply lookup_lt_Some in Hlook. unfold len. lia.
Qed.

Lemma first_missing_skip pr o (k : nat) :
  first_missing pr o → Z.of_nat k * BlockSize < o →
  pr !! Z.to_nat (0 + Z.of_nat k * BlockSize) ≠ Some Missing.
Proof.
  pose proof BlockSize_val as HB.
  intros [_ Hfirst] Hk Hlook. apply (Hfirst (Z.of_nat k * BlockSize)); [done |].
  repeat split; [by apply Z.divide_factor_r | lia | done].
Qed.

Lemma nextOffset_claims p o :
  len (progress p) < 2 ^ 32 →
  first_missing (progress p) o →
  o + BlockSize <= len (progress p) →
  nextOffset p =
    Ret (false, o, set_progress p (set_range o (o + BlockSize) Pending (progress p))).
Proof.
  pose proof BlockSize_val as HB.
  intros Hw Hfirst Hin. pose proof Hfirst as [Hs _].
  pose proof (stride_missing_lt _ _ Hs) as Ho.
  destruct Hs as ([k Hk] & _ & Hlook).
  unfold nextOffset. cbv zeta.
  rewrite u32_small by (pose proof (len_nonneg (progress p)); lia).
  rewrite (scan_loop_found (Z.to_nat k) scan_fuel (progress p) _ false 0);
    rewrite ?Z2Nat.id by lia; rewrite ?Z.add_0_l, <- ?Hk; try lia; try done.
  - rewrite mark_loop_ok; try lia; [| unfold mark_fuel; lia].
    rewrite bind_Ret. cbn. by rewrite Z.add_0_r.
  - intros j Hj. apply (first_missing_skip _ o); [done | lia].
  - rewrite scan_fuel_val. lia.
Qed.

Lemma nextOffset_panics p o :
  len (progress p) < 2 ^ 32 →
  first_missing (progress p) o →
  len (progress p) < o + BlockSize →
  nextOffset p = Panic.
Proof.
  pose proof BlockSize_val as HB.
  intros Hw Hfirst Hin. pose proof Hfirst as [Hs _].
  pose proof (stride_missing_lt _ _ Hs) as Ho.
  destruct Hs as ([k Hk] & _ & Hlook).
  unfold nextOffset. cbv zeta.
  rewrite u32_small by (pose proof (len_nonneg (progress p)); lia).
  rewrite (scan_loop_found (Z.to_nat k) scan_fuel (progress p) _ false 0);
    rewrite ?Z2Nat.id by lia; rewrite ?Z.add_0_l, <- ?Hk; try lia; try done.
  - rewrite mark_loop_panic; try lia; [done |].
    unfold mark_fuel. lia.
  - intros j Hj. apply (first_missing_skip _ o); [done | lia].
  - rewrite scan_fuel_val. lia.
Qed.

Lemma nextOffset_none p :
  len (progress p) <= 2 ^ 32 - BlockSize →
  (∀ o, ¬ stride_missing (progress p) o) →
  nextOffset p =
    Ret (false, (len (progress p) + BlockSize - 1) / BlockSize * BlockSize, p).
Proof.
  pose proof BlockSize_val as HB.
  intros Hw Hnone. pose proof (len_nonneg (progress p)) as Hl.
  set (q := (len (progress p) + BlockSize - 1) / BlockSize).
  assert (len (progress p) <= q * BlockSize < len (progress p) + BlockSize) as Hq.
  { unfold q. rewrite HB.
    pose proof (Z.div_mod (len (progress p) + 16384 - 1) 16384 ltac:(lia)).
    pose proof (Z.mod_pos_bound (len (progress p) + 16384 - 1) 16384 ltac:(lia)).
    lia. }
  clearbody q.
  unfold nextOffset. cbv zeta.
  rewrite u32_small by lia.
  rewrite (scan_loop_none (Z.to_nat q) scan_fuel (progress p) _ false 0);
    rewrite ?Z2Nat.id by lia; rewrite ?Z.add_0_l; try lia.
  - rewrite bind_Ret. by rewrite set_progress_id.
  - intros k Hk Hlook. apply (Hnone (Z.of_nat k * BlockSize)).
    repeat split; [by apply Z.divide_factor_r | lia | done].
  - rewrite scan_fuel_val. rewrite HB in *. lia.
Qed.

Lemma nextOffset_diverges p :
  2 ^ 32 - BlockSize < len (progress p) < 2 ^ 32 →
  (∀ o, ¬ stride_missing (progress p) o) →
  nextOffset p = OutOfFuel.
Proof.
  intros Hw Hnone. pose proof (len_nonneg (progress p)) as Hl.
  unfold nextOffset. cbv zeta.
  rewrite u32_small by lia.
  rewrite scan_loop_wraps; try done; try lia.
  apply Z.divide_0_r.
Qed.

(** When the scanned length is a whole number of strides past [idx], every
    access of the scan and of the marking loop is in range. *)
Lemma scan_loop_safe (n : nat) : ∀ fuel pr l has idx,
  0 <= idx → l = idx + Z.of_nat n * BlockSize → l <= len pr → l < 2 ^ 32 →
  (n < fuel)%nat →
  ∃ r, scan_loop fuel pr l has idx = Ret r.
Proof.
  pose proof BlockSize_val as HB.
  induction n as [| n IH]; intros fuel pr l has idx Hidx Hl Hlen Hw Hfuel.
  - destruct fuel as [| fuel]; [lia |].
    cbn [scan_loop]. rewrite !bool_decide_eq_false_2 by lia. eauto.
  - destruct fuel as [| fuel]; [lia |].
    cbn [scan_loop]. rewrite bool_decide_eq_true_2 by lia.
    destruct (lookup_in_range pr idx) as [b Hb]; [lia |].
    rewrite (index_Ret _ _ _ Hb), bind_Ret.
    case_bool_decide.
    + rewrite mark_loop_ok; try lia; [| unfold mark_fuel; lia].
      rewrite bind_Ret. eauto.
    + rewrite (u32_small (idx + BlockSize)) by lia.
      apply IH; lia.
Qed.

Lemma nextOffset_safe p :
  (BlockSize | len (progress p)) → ∃ r, nextOffset p = Ret r.
Proof.
  pose proof BlockSize_val as HB.
  intros [k Hk]. pose proof (len_nonneg (progress p)) as Hl.
  set (l := u32 (len (progress p))).
  assert (0 <= l < 2 ^ 32) as Hl32 by apply u32_range.
  assert (l <= len (progress p)) as Hle by (apply Z.mod_le; lia).
  assert (∃ j, l = j * BlockSize) as [j Hj].
  { exists (k - len (progress p) / 2 ^ 32 * 262144).
    pose proof (Z.div_mod (len (progress p)) (2 ^ 32) ltac:(lia)) as Hdm.
    fold (u32 (len (progress p))) in Hdm. fold l in Hdm. lia. }
  unfold nextOffset. cbv zeta. fold l.
  destruct (scan_loop_safe (Z.to_nat j) scan_fuel (progress p) l false 0)
    as [[[has idx] pr'] ->]; try lia.
  - rewrite scan_fuel_val. lia.
  - rewrite bind_Ret. eauto.
Qed.

(** Consecutive calls claim the strides in order: a stride whose first byte
    is [Missing] becomes the first such stride after at most as many calls
    as there are strides before it, provided those lie within the array. *)
Lemma nextOffset_reaches (d : nat) : ∀ (m : nat) p o,
  o = (Z.of_nat m + Z.of_nat d) * BlockSize →
  len (progress p) < 2 ^ 32 →
  progress p !! Z.to_nat o = Some Missing →
  (∀ k : nat, (k < m)%nat →
     progress p !! Z.to_nat (Z.of_nat k * BlockSize) ≠ Some Missing) →
  ∃ (n : nat) p',
    (n <= d)%nat ∧ nextOffset_times n p = Ret p' ∧
    first_missing (progress p') o ∧
    length (progress p') = length (progress p) ∧ piece p' = piece p.
Proof.
  pose proof BlockSize_val as HB.
  induction d as [| d IH]; intros m p o Ho Hw Hlook Hskip.
  - exists 0%nat, p. split_and!; try done. split; [split_and! |].
    + exists (Z.of_nat m + Z.of_nat 0). lia.
    + lia.
    + done.
    + intros o' Hlt ([k' ->] & Hpos & Hlook').
      apply (Hskip (Z.to_nat k')); [lia |]. by rewrite Z2Nat.id by lia.
  - assert (o < len (progress p)) as Hin.
    { apply lookup_lt_Some in Hlook. unfold len. lia. }
    destruct (decide (progress p !! Z.to_nat (Z.of_nat m * BlockSize) = Some Missing))
      as [Hm | Hm].
    + assert (first_missing (progress p) (Z.of_nat m * BlockSize)) as Hfirst.
      { split.
        - repeat split; [by apply Z.divide_factor_r | lia | done].
        - intros o' Hlt ([k' ->] & Hpos & Hlook').
          apply (Hskip (Z.to_nat k')); [lia |]. by rewrite Z2Nat.id by lia. }
      pose proof (nextOffset_claims p _ Hw Hfirst ltac:(lia)) as Hcall.
      set (p1 := set_progress p _) in Hcall.
      destruct (IH (S m) p1 o) as (n & p' & Hn & Htimes & Hf & Hlen & Hpiece).
      * lia.
      * unfold p1, len. cbn. rewrite set_range_length. done.
      * unfold p1. cbn. rewrite set_range_lookup_out; [done | lia].
      * intros k Hk. unfold p1. cbn.
        destruct (decide (k = m)) as [-> | Hne].
        -- rewrite set_range_lookup_in; [done | lia |].
           apply lookup_lt_Some in Hm. lia.
        -- rewrite set_range_lookup_out; [apply Hskip; lia | lia].
      * exists (S n), p'. split_and!; try done; [lia | |].
        -- cbn [nextOffset_times]. by rewrite Hcall, bind_Ret.
        -- rewrite Hlen. unfold p1. cbn. by rewrite set_range_length.
    + destruct (IH (S m) p o) as (n & p' & Hn & Htimes & Hf & Hlen & Hpiece);
        try done; [lia | |].
      * intros k Hk. destruct (decide (k = m)) as [-> | Hne]; [done |].
        apply Hskip. lia.
      * exists n, p'. split_and!; try done. lia.
Qed.



(** ** [done], [put] and [cancel] *)

Lemma done_loop_spec pr : done_loop pr = true ↔ Forall (λ b, b = Obtained) pr.
Proof.
  induction pr as [| b pr IH]; cbn [done_loop].
  - split; [constructor | done].
  - case_bool_decide as Hb.
    + split; [done |]. intros HF. by inversion HF.
    + rewrite IH. split.
      * intros HF. constructor; [| done]. by destruct (decide (b = Obtained)).
      * intros HF. by inversion HF.
Qed.

Lemma copy_short {A} (dst src : list A) :
  (length src <= length dst)%nat → copy dst src = src ++ drop (length src) dst.
Proof. intros. unfold copy. by rewrite take_ge by lia. Qed.

Lemma write_at_length d offset data :
  0 <= offset → offset + len data <= len d →
  length (write_at d offset data) = length d.
Proof.
  unfold write_at, len. intros.
  rewrite !length_app, length_take, length_drop. lia.
Qed.

Lemma put_in_bounds p offset data :
  wf p → 0 <= offset → offset + len data <= len (progress p) →
  put p offset data =
    Ret {| piece := {| Index := Index (piece p); Begin := Begin (piece p);
                        Data := write_at (Data (piece p)) offset data |};
           progress := set_range offset (offset + len data) Obtained (progress p) |}.
Proof.
  intros [Hsame Hw] Hoff Hin. pose proof (len_nonneg data) as Hd.
  unfold put. cbv zeta.
  rewrite (u32_small (len (progress p))) by (pose proof (len_nonneg (progress p)); lia).
  rewrite (u32_small (len data)) by lia.
  rewrite (u32_small (offset + len data)) by lia.
  rewrite bool_decide_eq_true_2 by done.
  unfold slice_from. rewrite bool_decide_eq_true_2 by (unfold len in *; lia).
  rewrite bind_Ret.
  rewrite (put_loop_ok _ _ offset 0); [| lia | lia | unfold len in *; lia | lia].
  rewrite bind_Ret. unfold set_progress, set_data. cbn.
  rewrite copy_short by (rewrite length_drop; unfold len in *; lia).
  rewrite drop_drop. unfold write_at, len. by rewrite Z.add_0_r.
Qed.

Lemma put_out_of_range p offset data :
  0 <= offset → offset + len data < 2 ^ 32 →
  u32 (len (progress p)) < offset + len data →
  put p offset data = Ret p.
Proof.
  intros Hoff Hno Hout. pose proof (len_nonneg data) as Hd.
  unfold put. cbv zeta.
  rewrite (u32_small (len data)) by lia.
  rewrite (u32_small (offset + len data)) by lia.
  by rewrite bool_decide_eq_false_2 by lia.
Qed.

Lemma cancel_in_bounds p offset length :
  len (progress p) < 2 ^ 32 → 0 <= offset → 0 <= length →
  offset + length <= len (progress p) →
  cancel p offset length =
    Ret (set_progress p (set_range offset (offset + length) Missing (progress p))).
Proof.
  intros Hw Hoff Hl Hin. unfold cancel. cbv zeta.
  rewrite (u32_small (len (progress p))) by (pose proof (len_nonneg (progress p)); lia).
  rewrite (u32_small (offset + length)) by lia.
  rewrite bool_decide_eq_true_2 by done.
  rewrite cancel_loop_ok by lia. by rewrite bind_Ret.
Qed.

Lemma put_preserves_wf p offset data :
  wf p → 0 <= offset → offset + len data <= len (progress p) →
  ∃ p', put p offset data = Ret p' ∧ wf p' ∧
        length (progress p') = length (progress p) ∧
        progress p' = set_range offset (offset + len data) Obtained (progress p).
Proof.
  intros Hwf Hoff Hin. rewrite put_in_bounds by done.
  eexists. split; [done |]. destruct Hwf as [Hsame Hw].
  cbn. unfold wf, len in *. cbn.
  rewrite set_range_length, write_at_length; unfold len; [done | lia | lia].
Qed.

(** After a sequence of in-range [put] calls, a byte is [Obtained] when one
    of the calls covered it and is as it was otherwise. *)
Lemma put_all_lookup puts : ∀ p,
  wf p → in_bounds (len (progress p)) puts →
  ∃ p', put_all puts p = Ret p' ∧
        length (progress p') = length (progress p) ∧
        ∀ (j : nat) b, progress p !! j = Some b →
          (covered puts (Z.of_nat j) → progress p' !! j = Some Obtained) ∧
          (¬ covered puts (Z.of_nat j) → progress p' !! j = Some b).
Proof.
  induction puts as [| [offset data] puts IH]; intros p Hwf Hb.
  - exists p. split_and!; [done | done |]. intros j b Hj. split; [| done].
    intros Hc. by apply Exists_nil in Hc.
  - apply Forall_cons in Hb as [[Hoff Hin] Hb].
    destruct (put_preserves_wf p offset data Hwf Hoff Hin)
      as (p1 & Hput & Hwf1 & Hlen1 & Hpr1).
    destruct (IH p1 Hwf1) as (p' & Hall & Hlen & Hlook).
    { unfold len in *. by rewrite Hlen1. }
    exists p'. split_and!.
    + cbn [put_all]. by rewrite Hput, bind_Ret.
    + by rewrite Hlen, Hlen1.
    + intros j b Hj.
      destruct (decide (offset <= Z.of_nat j < offset + len data)) as [Hhere | Hnot].
      * assert (progress p1 !! j = Some Obtained) as Hj1.
        { rewrite Hpr1. apply set_range_lookup_in; [done |].
          by apply lookup_lt_Some in Hj. }
        destruct (Hlook j Obtained Hj1) as [Hcov Hncov].
        split; intros Hc.
        -- destruct (decide (covered puts (Z.of_nat j))); eauto.
        -- exfalso. apply Hc. by apply Exists_cons_hd.
      * assert (progress p1 !! j = Some b) as Hj1.
        { rewrite Hpr1. by rewrite set_range_lookup_out. }
        destruct (Hlook j b Hj1) as [Hcov Hncov]. split.
        -- intros Hc. apply Exists_cons in Hc as [Hc | Hc]; [done | eauto].
        -- intros Hc. apply Hncov. intros Hc'. apply Hc. by apply Exists_cons_tl.
Qed.

Lemma set_range_replicate (n : nat) v w :
  set_range 0 (Z.of_nat n) v (replicate n w) = replicate n v.
Proof.
  apply list_eq. intros j.
  destruct (decide (j < n)%nat) as [Hlt | Hge].
  - rewrite set_range_lookup_in by (rewrite ?length_replicate; lia).
    symmetry. by apply lookup_replicate_2.
  - rewrite !(lookup_ge_None_2 _ j); rewrite ?set_range_length, ?length_replicate; (done || lia).
Qed.

Lemma nextOffset_blank_block (n : nat) :
  Z.of_nat n = BlockSize →
  nextOffset (blank_piece n) =
    Ret (false, 0,
         {| piece := piece (blank_piece n); progress := replicate n Pending |}).
Proof.
  pose proof BlockSize_val as HB. intros Hn.
  assert (len (progress (blank_piece n)) = BlockSize) as Hlen.
  { unfold len. cbn [blank_piece progress]. rewrite length_replicate. lia. }
  rewrite (nextOffset_claims _ 0).
  - unfold set_progress. do 3 f_equal. cbn [blank_piece progress].
    rewrite Z.add_0_l, <- Hn. apply set_range_replicate.
  - rewrite Hlen. lia.
  - split.
    + split_and!; [apply Z.divide_0_r | done |].
      cbn [blank_piece progress]. apply lookup_replicate_2. lia.
    + intros o' Hneg (_ & Hpos & _). lia.
  - rewrite Hlen. lia.
Qed.

(** ** The claims on the piece progress tracker *)

(** C2 (the code departs from it): on a piece of one full block on which
    nothing was requested, the first stride is claimable; [nextOffset]
    marks it [Pending] and returns its offset 0, but returns [has = false].
    The named result [has] is only assigned after the loop, under a test
    that is false whenever the loop has ended ([nextOffset_has_false]). *)
Theorem nextOffset_claimed_stride_reports_no_more :
  nextOffset (blank_piece (Z.to_nat BlockSize)) =
    Ret (false, 0,
         {| piece := piece (blank_piece (Z.to_nat BlockSize));
            progress := replicate (Z.to_nat BlockSize) Pending |}).
Proof.
  apply nextOffset_blank_block. apply Z2Nat.id. by rewrite BlockSize_val.
Qed.

(** C3: when the length of the status array is a multiple of [BlockSize],
    [nextOffset] returns without an out-of-range access.  When it is not
    (the array being shorter than [2^32], as [uint32] offsets require), and
    the first byte of the final, partial stride is [Missing], the call
    that claims this stride (the one that finds no earlier claimable
    stride) runs the marking loop past the end of the array and panics;
    consecutive calls claim the strides in order, so one of the first
    [len / BlockSize + 1] calls is that call. *)
Theorem nextOffset_in_range_iff_whole_strides p :
  ((BlockSize | len (progress p)) → ∃ r, nextOffset p = Ret r) ∧
  (len (progress p) < 2 ^ 32 → ¬ (BlockSize | len (progress p)) →
   let o := len (progress p) / BlockSize * BlockSize in
   progress p !! Z.to_nat o = Some Missing →
   (first_missing (progress p) o → nextOffset p = Panic) ∧
   ∃ (n : nat) p',
     Z.of_nat n <= len (progress p) / BlockSize ∧
     nextOffset_times n p = Ret p' ∧ nextOffset p' = Panic).
Proof.
  pose proof BlockSize_val as HB. split; [apply nextOffset_safe |].
  intros Hw Hndiv o Hlook. pose proof (len_nonneg (progress p)) as Hl.
  set (q := len (progress p) / BlockSize) in *.
  assert (o <= len (progress p) < o + BlockSize) as Hlast.
  { pose proof (Z.div_mod (len (progress p)) BlockSize ltac:(lia)) as Hdm.
    pose proof (Z.mod_pos_bound (len (progress p)) BlockSize ltac:(lia)).
    fold q in Hdm. unfold o. lia. }
  assert (0 <= q) as Hq by (apply Z.div_pos; lia).
  split.
  - intros Hfirst. apply (nextOffset_panics p o); [done | done | lia].
  - destruct (nextOffset_reaches (Z.to_nat q) 0%nat p o)
      as (n & p' & Hn & Htimes & Hfirst & Hlen & _); try done.
    + unfold o. lia.
    + lia.
    + exists n, p'. split_and!; [lia | done |].
      apply (nextOffset_panics p' o); unfold len in *; rewrite ?Hlen; (done || lia).
Qed.

Lemma nextOffset_in_range_iff_whole_strides_witness :
  (∃ r, nextOffset (blank_piece 0) = Ret r) ∧
  nextOffset (blank_piece 5) = Panic ∧
  ∃ (n : nat) p',
    Z.of_nat n <= len (progress (blank_piece 5)) / BlockSize ∧
    nextOffset_times n (blank_piece 5) = Ret p' ∧ nextOffset p' = Panic.
Proof.
  assert (¬ (BlockSize | len (progress (blank_piece 5)))) as Hndiv.
  { intros [k Hk]. change (5 = k * 16384) in Hk. lia. }
  assert (first_missing (progress (blank_piece 5)) 0) as Hfirst.
  { split; [| intros o' Hneg (_ & Hpos & _); lia].
    split_and!; [apply Z.divide_0_r | done | reflexivity]. }
  split; [| split].
  - apply (proj1 (nextOffset_in_range_iff_whole_strides (blank_piece 0))).
    apply Z.divide_0_r.
  - apply (proj2 (nextOffset_in_range_iff_whole_strides (blank_piece 5)));
      [by vm_compute | done | reflexivity | done].
  - apply (proj2 (nextOffset_in_range_iff_whole_strides (blank_piece 5)));
      [by vm_compute | done | reflexivity].
Defined.

(** C4 (the code departs from it): a [put] whose offset plus length wraps
    around 32 bits passes the bounds check; with offset [2^32 - 1] and two
    bytes of data on a four-byte piece the sum wraps to 1, and slicing the
    piece buffer at the offset panics. *)
Theorem put_wrapped_range_panics :
  wf (blank_piece 4) ∧ put (blank_piece 4) 4294967295 [1; 2] = Panic.
Proof. split; [by vm_compute | reflexivity]. Qed.

(** C8: on a status array that [uint32] offsets can address (shorter than
    [2^32]), [cancel] over the range of an in-bounds block-aligned stride
    sets exactly the bytes of that stride to [Missing], whatever they were
    ([Pending] or [Obtained]).  Afterwards [nextOffset] can claim the stride
    again: the call that finds no earlier claimable stride returns the
    offset of the stride and marks it [Pending], and consecutive calls reach
    that call after claiming the earlier claimable strides. *)
Theorem cancel_then_nextOffset_reclaims p o :
  len (progress p) < 2 ^ 32 →
  (BlockSize | o) → 0 <= o → o + BlockSize <= len (progress p) →
  ∃ p1,
    cancel p o BlockSize = Ret p1 ∧ piece p1 = piece p ∧
    length (progress p1) = length (progress p) ∧
    (∀ j : nat, o <= Z.of_nat j < o + BlockSize → progress p1 !! j = Some Missing) ∧
    (∀ j : nat, ¬ (o <= Z.of_nat j < o + BlockSize) →
       progress p1 !! j = progress p !! j) ∧
    ((∀ o', o' < o → ¬ stride_missing (progress p) o') →
     nextOffset p1 =
       Ret (false, o,
            set_progress p1 (set_range o (o + BlockSize) Pending (progress p1)))) ∧
    ∃ (n : nat) p2,
      Z.of_nat n <= o / BlockSize ∧ nextOffset_times n p1 = Ret p2 ∧
      nextOffset p2 =
        Ret (false, o,
             set_progress p2 (set_range o (o + BlockSize) Pending (progress p2))).
Proof.
  pose proof BlockSize_val as HB. intros Hw Hdiv Hpos Hin.
  pose proof Hdiv as [k Hk].
  assert (o / BlockSize = k) as Hquot by (rewrite Hk; apply Z.div_mul; lia).
  exists (set_progress p (set_range o (o + BlockSize) Missing (progress p))).
  split; [by apply cancel_in_bounds; try lia |].
  cbn [set_progress piece progress].
  assert (set_range o (o + BlockSize) Missing (progress p) !! Z.to_nat o
          = Some Missing) as Hlook.
  { apply set_range_lookup_in; unfold len in *; lia. }
  split_and!.
  - done.
  - apply set_range_length.
  - intros j Hj. apply set_range_lookup_in; unfold len in *; lia.
  - intros j Hj. by apply set_range_lookup_out.
  - intros Hskip. apply (nextOffset_claims (mkCachedPiece _ _)); cbn [progress].
    + unfold len in *. by rewrite set_range_length.
    + split; [by split_and! |].
      intros o' Hlt (Hd' & Hpos' & Hlook'). apply (Hskip o' Hlt).
      split_and!; [done | done |].
      rewrite set_range_lookup_out in Hlook'; [done | lia].
    + unfold len in *. by rewrite set_range_length.
  - destruct (nextOffset_reaches (Z.to_nat k) 0%nat
                (set_progress p (set_range o (o + BlockSize) Missing (progress p))) o)
      as (n & p2 & Hn & Htimes & Hfirst & Hlen & _); cbn [set_progress progress].
    + lia.
    + unfold len in *. by rewrite set_range_length.
    + done.
    + lia.
    + cbn [set_progress progress] in Hlen. rewrite set_range_length in Hlen.
      exists n, p2. split_and!; [lia | done |].
      apply nextOffset_claims; unfold len in *; rewrite ?Hlen; done.
Qed.

Lemma cancel_then_nextOffset_reclaims_witness :
  ∃ p1,
    cancel claimed_block 0 BlockSize = Ret p1 ∧
    (∀ j : nat, 0 <= Z.of_nat j < 0 + BlockSize → progress p1 !! j = Some Missing) ∧
    nextOffset p1 =
      Ret (false, 0,
           set_progress p1 (set_range 0 (0 + BlockSize) Pending (progress p1))).
Proof.
  pose proof BlockSize_val as HB.
  assert (len (progress claimed_block) = BlockSize) as Hlen.
  { unfold len, claimed_block. cbn [progress]. rewrite length_replicate. lia. }
  destruct (cancel_then_nextOffset_reclaims claimed_block 0)
    as (p1 & Hcancel & _ & _ & Hmiss & _ & Hnext & _).
  - rewrite Hlen. lia.
  - apply Z.divide_0_r.
  - lia.
  - rewrite Hlen. lia.
  - exists p1. split_and!; [done | done |].
    apply Hnext. intros o' Hneg (_ & Hpos & _). lia.
Defined.

(** C9: [done] returns true exactly when every entry of the status array
    is [Obtained].  Consequently, on a piece none of whose bytes is
    [Obtained] yet, a sequence of in-bounds [put] calls runs to its end, and
    afterwards [done] is true exactly when the ranges of the calls cover
    every byte of the status array. *)
Theorem done_iff_every_byte_put p puts :
  (done p = true ↔ Forall (λ b, b = Obtained) (progress p)) ∧
  (wf p → Forall (λ b, b ≠ Obtained) (progress p) →
   in_bounds (len (progress p)) puts →
   ∃ p', put_all puts p = Ret p' ∧
         (done p' = true ↔ ∀ j, 0 <= j < len (progress p) → covered puts j)).
Proof.
  split; [apply done_loop_spec |].
  intros Hwf Hfresh Hb.
  destruct (put_all_lookup puts p Hwf Hb) as (p' & Hall & Hlen & Hlook).
  exists p'. split; [done |].
  unfold done. rewrite done_loop_spec, Forall_lookup. split.
  - intros Hdone j Hj.
    destruct (lookup_in_range (progress p) j Hj) as [b Hjb].
    destruct (decide (covered puts j)) as [| Hnc]; [done | exfalso].
    rewrite Forall_lookup in Hfresh. apply (Hfresh _ _ Hjb).
    apply (Hdone (Z.to_nat j)).
    destruct (Hlook _ _ Hjb) as [_ Hkeep]. apply Hkeep.
    by rewrite Z2Nat.id by lia.
  - intros Hcov j x Hjx.
    assert (j < length (progress p))%nat as Hj.
    { rewrite <- Hlen. by apply lookup_lt_Some in Hjx. }
    destruct (lookup_lt_is_Some_2 _ _ Hj) as [b Hjb].
    destruct (Hlook _ _ Hjb) as [Hset _].
    rewrite Hset in Hjx; [by injection Hjx |].
    apply Hcov. unfold len. lia.
Qed.

Lemma done_iff_every_byte_put_witness :
  ∃ p', put_all [(0, [7; 7]); (2, [8; 8])] (blank_piece 4) = Ret p' ∧
        (done p' = true ↔
         ∀ j, 0 <= j < len (progress (blank_piece 4)) →
              covered [(0, [7; 7]); (2, [8; 8])] j).
Proof.
  apply (proj2 (done_iff_every_byte_put (blank_piece 4) [(0, [7; 7]); (2, [8; 8])])).
  - by vm_compute.
  - repeat constructor; by vm_compute.
  - repeat constructor; by vm_compute.
Defined.

(** ** Peer admission and bounded retries *)

Section SwarmFacts.
Context {W Conn Tracker Peer : Type}.
Context `{!Network W Conn, !Storage W, !HandshakeIO W Conn,
          !Announcer W Tracker Peer}.

Implicit Types (t : Torrent W Conn) (a : Addr) (pid : PeerID).

Lemma dials_emit (e : Event Conn) t :
  dials (trace (emit e t)) =
  dials (trace t) ++
    match e with Dialed _ address => [address] | _ => [] end.
Proof. unfold dials. cbn. rewrite omap_app. by destruct e. Qed.

(** Every call of [AddPeer] dials exactly once. *)
Lemma AddPeer_dials a pid t :
  dials (trace (AddPeer a pid t).1) = dials (trace t) ++ [addr_string a].
Proof.
  unfold AddPeer, dials.
  destruct (Net_Dial _ _ _) as [w1 [c | e]]; cbn;
    [| by rewrite omap_app].
  destruct (Handshake_Send _ _ _) as [w2 [e |]]; cbn.
  { rewrite !omap_app. cbn. by rewrite app_nil_r. }
  destruct (Handshake_Recv _ _ _) as [[w3 h'] [e |]]; cbn.
  { rewrite !omap_app. cbn. by rewrite app_nil_r. }
  case_bool_decide; cbn; rewrite !omap_app; cbn; by rewrite !app_nil_r.
Qed.

(** A call of [AddPeer] that returns an error leaves the connection set
    as it was. *)
Lemma AddPeer_error_conns a pid t :
  (AddPeer a pid t).2 ≠ None → conns (AddPeer a pid t).1 = conns t.
Proof.
  unfold AddPeer.
  destruct (Net_Dial _ _ _) as [w1 [c | e]]; cbn; [| done].
  destruct (Handshake_Send _ _ _) as [w2 [e |]]; cbn; [done |].
  destruct (Handshake_Recv _ _ _) as [[w3 h'] [e |]]; cbn; [done |].
  case_bool_decide; cbn; done.
Qed.

Lemma after_attempts_dials k : ∀ a pid t,
  dials (trace (after_attempts k a pid t)) =
  dials (trace t) ++ replicate k (addr_string a).
Proof.
  induction k as [| k IH]; intros a pid t; cbn [after_attempts replicate].
  - by rewrite app_nil_r.
  - rewrite IH, AddPeer_dials. by rewrite <- app_assoc.
Qed.

Lemma after_attempts_conns k : ∀ a pid t,
  all_fail k a pid t → conns (after_attempts k a pid t) = conns t.
Proof.
  induction k as [| k IH]; intros a pid t; cbn [after_attempts all_fail]; [done |].
  intros (_ & Herr & Hrest). rewrite IH by done. by apply AddPeer_error_conns.
Qed.

(** The loop stops within [n] turns when it starts with [n] tries left. *)
Lemma PersistPeer_loop_total (n : nat) : ∀ fuel a pid t,
  (1 <= n)%nat → (n <= fuel)%nat →
  ∃ k : nat, (k <= n)%nat ∧
    PersistPeer_loop fuel a pid (Z.of_nat n) t = Ret (after_attempts k a pid t).
Proof.
  induction n as [| n IH]; intros fuel a pid t Hn Hfuel; [lia |].
  destruct fuel as [| fuel]; [lia |]. cbn [PersistPeer_loop].
  destruct (Done t); cbn [negb]; [exists 0%nat; split; [lia | done] |].
  destruct (AddPeer a pid t) as [t1 err] eqn:Hadd.
  assert (after_attempts 1 a pid t = t1) as H1.
  { cbn [after_attempts]. by rewrite Hadd. }
  destruct err as [e |]; [| exists 1%nat; split; [lia | by rewrite H1]].
  cbv zeta. case_bool_decide as Hz; [exists 1%nat; split; [lia | by rewrite H1] |].
  replace (Z.of_nat (S n) - 1) with (Z.of_nat n) in * by lia.
  destruct (IH fuel a pid t1) as (k & Hk & Hloop); [lia | lia |].
  exists (S k). split; [lia |].
  rewrite Hloop. cbn [after_attempts]. by rewrite Hadd.
Qed.

(** [n] failed attempts use up [n] tries. *)
Lemma PersistPeer_loop_all_fail (n : nat) : ∀ fuel a pid t,
  (1 <= n)%nat → (n <= fuel)%nat → all_fail n a pid t →
  PersistPeer_loop fuel a pid (Z.of_nat n) t = Ret (after_attempts n a pid t).
Proof.
  induction n as [| n IH]; intros fuel a pid t Hn Hfuel Hfail; [lia |].
  destruct fuel as [| fuel]; [lia |]. cbn [PersistPeer_loop].
  destruct Hfail as (Hdone & Herr & Hrest). rewrite Hdone. cbn [negb].
  cbn [after_attempts].
  destruct (AddPeer a pid t) as [t1 err]. cbn [fst snd] in *.
  destruct err as [e |]; [| done].
  cbv zeta. case_bool_decide as Hz.
  - by replace n with 0%nat by lia.
  - replace (Z.of_nat (S n) - 1) with (Z.of_nat n) in * by lia.
    apply IH; [lia | lia | done].
Qed.

(** After [k] failed attempts, with tries left, the loop stops at once
    when the torrent is done and after one more attempt when that
    attempt returns no error. *)
Lemma PersistPeer_loop_stops (k : nat) : ∀ fuel (tries : Z) a pid t,
  Z.of_nat k < tries → (k < fuel)%nat → all_fail k a pid t →
  (Done (after_attempts k a pid t) = true →
   PersistPeer_loop fuel a pid tries t = Ret (after_attempts k a pid t)) ∧
  (Done (after_attempts k a pid t) = false →
   (AddPeer a pid (after_attempts k a pid t)).2 = None →
   PersistPeer_loop fuel a pid tries t = Ret (after_attempts (S k) a pid t)).
Proof.
  induction k as [| k IH]; intros fuel tries a pid t Htries Hfuel Hfail.
  - destruct fuel as [| fuel]; [lia |]. cbn [PersistPeer_loop after_attempts].
    split.
    + by intros ->.
    + intros -> Hok. cbn [negb].
      destruct (AddPeer a pid t) as [t1 err]. cbn [fst snd] in *. by subst err.
  - destruct fuel as [| fuel]; [lia |].
    destruct Hfail as (Hdone & Herr & Hrest).
    cbn [PersistPeer_loop]. rewrite Hdone. cbn [negb].
    change (after_attempts (S (S k)) a pid t)
      with (after_attempts (S k) a pid (AddPeer a pid t).1).
    change (after_attempts (S k) a pid t)
      with (after_attempts k a pid (AddPeer a pid t).1).
    destruct (AddPeer a pid t) as [t1 err]. cbn [fst snd] in *.
    destruct err as [e |]; [| done].
    cbv zeta. rewrite bool_decide_eq_false_2 by lia.
    apply IH; [lia | lia | done].
Qed.
(** C1 (the code departs from it): when the dial, the sending and the
    receiving of the handshake succeed and the peer answers with another
    infohash, [AddPeer] closes the connection and leaves the connection set
    as it was, but the error it returns is the one of the successful
    [Recv], that is [nil]. *)
Theorem AddPeer_infohash_mismatch_returns_nil a pid t c w1 w2 w3 h' :
  Net_Dial (addr_network a) (addr_string a) (world t) = (w1, inl c) →
  Handshake_Send (Handshake.mk (st_Infohash w1) (id t)) c w1 = (w2, None) →
  Handshake_Recv (Handshake.mk (st_Infohash w1) (id t)) c w2 = (w3, h', None) →
  Handshake.Infohash h' ≠ st_Infohash w1 →
  AddPeer a pid t =
    (mkTorrent w3 (id t) (conns t)
       ((trace t ++ [Dialed (addr_network a) (addr_string a)]) ++ [ConnClosed c]),
     None).
Proof.
  intros Hdial Hsend Hrecv Hne. unfold AddPeer. rewrite Hdial. cbn.
  rewrite Hsend. cbn. rewrite Hrecv. cbn.
  by rewrite bool_decide_eq_false_2 by done.
Qed.

(** C7: [PersistPeer] always returns, after at most 10 calls of [AddPeer].
    When the torrent is never done and every call returns an error, it
    returns after exactly 10 calls, with the connection set as it was, and
    it has no result that could carry an error.  It returns earlier as soon
    as the torrent is done before an attempt, or an attempt returns no
    error. *)
Theorem PersistPeer_bounded_retries a pid t :
  (∃ k : nat, (k <= 10)%nat ∧
     PersistPeer a pid t = Ret (after_attempts k a pid t)) ∧
  (all_fail 10 a pid t →
   PersistPeer a pid t = Ret (after_attempts 10 a pid t) ∧
   dials (trace (after_attempts 10 a pid t)) =
     dials (trace t) ++ replicate 10 (addr_string a) ∧
   conns (after_attempts 10 a pid t) = conns t) ∧
  (∀ k : nat, (k < 10)%nat → all_fail k a pid t →
   Done (after_attempts k a pid t) = true →
   PersistPeer a pid t = Ret (after_attempts k a pid t) ∧
   dials (trace (after_attempts k a pid t)) =
     dials (trace t) ++ replicate k (addr_string a)) ∧
  (∀ k : nat, (k < 10)%nat → all_fail k a pid t →
   Done (after_attempts k a pid t) = false →
   (AddPeer a pid (after_attempts k a pid t)).2 = None →
   PersistPeer a pid t = Ret (after_attempts (S k) a pid t) ∧
   dials (trace (after_attempts (S k) a pid t)) =
     dials (trace t) ++ replicate (S k) (addr_string a)).
Proof.
  unfold PersistPeer. split_and!.
  - apply (PersistPeer_loop_total 10); lia.
  - intros Hfail. split_and!.
    + by apply (PersistPeer_loop_all_fail 10); [lia | lia |].
    + apply after_attempts_dials.
    + by apply after_attempts_conns.
  - intros k Hk Hfail Hdone. split; [| apply after_attempts_dials].
    by apply (PersistPeer_loop_stops k 10 10); [lia | lia | |].
  - intros k Hk Hfail Hdone Hok. split; [| apply after_attempts_dials].
    by apply (PersistPeer_loop_stops k 10 10); [lia | lia | | |].
Qed.
End SwarmFacts.

Lemma AddPeer_infohash_mismatch_returns_nil_witness :
  AddPeer Demo.other_swarm [] Demo.t0 =
    (mkTorrent () [5] ∅ [Dialed "i2p" "a.i2p"; ConnClosed 1%nat], None).
Proof.
  by apply (AddPeer_infohash_mismatch_returns_nil
              Demo.other_swarm [] Demo.t0 1%nat () () () (Handshake.mk [9; 9; 9] [7])).
Defined.

Lemma PersistPeer_bounded_retries_witness :
  PersistPeer Demo.dead [] Demo.t0 = Ret (after_attempts 10 Demo.dead [] Demo.t0) ∧
  dials (trace (after_attempts 10 Demo.dead [] Demo.t0)) =
    replicate 10 "dead.i2p"%string ∧
  conns (after_attempts 10 Demo.dead [] Demo.t0) = ∅ ∧
  PersistPeer Demo.same_swarm [] Demo.t0 =
    Ret (after_attempts 1 Demo.same_swarm [] Demo.t0) ∧
  dials (trace (after_attempts 1 Demo.same_swarm [] Demo.t0)) = ["b.i2p"%string].
Proof.
  pose proof (PersistPeer_bounded_retries Demo.dead [] Demo.t0) as (_ & Hall & _).
  pose proof (PersistPeer_bounded_retries Demo.same_swarm [] Demo.t0)
    as (_ & _ & _ & Hone).
  destruct Hall as (Hret & Hdials & Hconns); [by vm_compute |].
  destruct (Hone 0%nat) as [Hret1 Hdials1];
    [lia | done | reflexivity | reflexivity |].
  split_and!; [exact Hret | exact Hdials | exact Hconns | exact Hret1 | exact Hdials1].
Defined.

(** ** The request loop *)

Lemma be32_value v : 0 <= v < 2 ^ 32 → be_value (be32 v) = v.
Proof.
  intros Hv. unfold be_value, be32, byte. cbn [foldl].
  rewrite !Z.shiftr_div_pow2 by lia.
  change (2 ^ 24) with 16777216. change (2 ^ 16) with 65536. change (2 ^ 8) with 256.
  Z.div_mod_to_equations. lia.
Qed.

Lemma PutUint32_Ret (b : list Z) v b0 b1 b2 b3 rest :
  b = b0 :: b1 :: b2 :: b3 :: rest → PutUint32 b v = Ret (be32 v ++ rest).
Proof.
  intros ->. unfold PutUint32.
  rewrite (index_Ret _ 3 b3) by done. rewrite bind_Ret.
  rewrite store_Ret by (unfold len; cbn [length]; lia). rewrite bind_Ret.
  rewrite store_Ret by (unfold len; rewrite length_insert; cbn [length]; lia).
  rewrite bind_Ret.
  rewrite store_Ret by (unfold len; rewrite !length_insert; cbn [length]; lia).
  rewrite bind_Ret.
  rewrite store_Ret by (unfold len; rewrite !length_insert; cbn [length]; lia).
  done.
Qed.

Lemma copy_exact {A} (dst src : list A) :
  length dst = length src → copy dst src = src.
Proof.
  intros Hlen. unfold copy. rewrite Hlen, take_ge, drop_ge by lia.
  by rewrite app_nil_r.
Qed.

Lemma through_Ret {A} (s : list A) low f pre sub sub' :
  s = pre ++ sub → Z.of_nat (length pre) = low → f sub = Ret sub' →
  through s low f = Ret (pre ++ sub').
Proof.
  intros -> <- Hf. unfold through, slice_from.
  rewrite bool_decide_eq_true_2 by (unfold len; rewrite length_app; lia).
  rewrite bind_Ret, Nat2Z.id, drop_app_length, Hf, bind_Ret.
  by rewrite take_app_length.
Qed.

(** The buffer [d] that [Run] builds for the piece [p] *)
Lemma piece_payload (p : PieceData) :
  (d ← PutUint32 (replicate (8 + length (Data p)) 0) (Index p);
   d ← through d 4 (λ s, PutUint32 s (Begin p));
   through d 8 (λ s, Ret (copy s (Data p))))
  = Ret (be32 (Index p) ++ be32 (Begin p) ++ Data p).
Proof.
  cbn [Nat.add replicate].
  rewrite (PutUint32_Ret _ _ 0 0 0 0 (0 :: 0 :: 0 :: 0 :: replicate (length (Data p)) 0))
    by done.
  rewrite bind_Ret.
  rewrite (through_Ret _ 4 _ (be32 (Index p))
             (0 :: 0 :: 0 :: 0 :: replicate (length (Data p)) 0)
             (be32 (Begin p) ++ replicate (length (Data p)) 0));
    [| done | done | by apply (PutUint32_Ret _ _ 0 0 0 0)].
  rewrite bind_Ret.
  rewrite (through_Ret _ 8 _ (be32 (Index p) ++ be32 (Begin p))
             (replicate (length (Data p)) 0) (Data p)).
  - by rewrite <- app_assoc.
  - by rewrite <- app_assoc.
  - done.
  - f_equal. apply copy_exact. apply length_replicate.
Qed.

Section RunFacts.
Context {W Conn : Type} `{!Storage W}.

Implicit Types (t : Torrent W Conn) (ev : pieceEvent Conn).

Lemma Run_app (pre post : list (pieceEvent Conn)) : ∀ t,
  Run (pre ++ post) t = Run pre t ≫= Run post.
Proof.
  induction pre as [| ev pre IH]; intros t; cbn [app Run]; [done |].
  destruct (serve ev t) as [t1 | |]; [| done | done].
  rewrite !bind_Ret. apply IH.
Qed.

Lemma serve_refuses ev t :
  PieceRequest.Length (ev_r ev) = 0 ∨ st_GetPiece (ev_r ev) (world t) = None →
  serve ev t = Ret (emit (PeerClosed (ev_c ev)) t).
Proof.
  intros Hbad. unfold serve. cbv zeta. case_bool_decide as Hlen; [| done].
  destruct Hbad as [Hz | ->]; [lia | done].
Qed.

Lemma serve_answers ev t p :
  PieceRequest.Length (ev_r ev) > 0 →
  st_GetPiece (ev_r ev) (world t) = Some p →
  serve ev t =
    Ret (emit (PeerSent (ev_c ev)
                 (NewWireMessage Piece (be32 (Index p) ++ be32 (Begin p) ++ Data p)))
              t).
Proof.
  intros Hlen Hget. unfold serve. cbv zeta.
  rewrite bool_decide_eq_true_2 by done. rewrite Hget.
  generalize (piece_payload p).
  destruct (PutUint32 _ _) as [d1 | |]; [| done | done].
  rewrite !bind_Ret.
  destruct (through d1 4 _) as [d2 | |]; [| done | done].
  rewrite !bind_Ret. by intros ->.
Qed.

(** C5: an event of the channel whose request has length zero, or whose
    piece the storage does not hold, makes [Run] close the connection the
    request came from and go on with the next event; nothing is sent: the
    close is the only thing the turn adds to the trace. *)
Theorem Run_closes_on_unservable_request pre ev post t t1 :
  Run pre t = Ret t1 →
  PieceRequest.Length (ev_r ev) = 0 ∨ st_GetPiece (ev_r ev) (world t1) = None →
  serve ev t1 = Ret (emit (PeerClosed (ev_c ev)) t1) ∧
  trace (emit (PeerClosed (ev_c ev)) t1) = trace t1 ++ [PeerClosed (ev_c ev)] ∧
  Run (pre ++ ev :: post) t = Run post (emit (PeerClosed (ev_c ev)) t1).
Proof.
  intros Hpre Hbad. pose proof (serve_refuses ev t1 Hbad) as Hserve.
  split_and!; [done | done |].
  rewrite Run_app, Hpre, bind_Ret. cbn [Run]. by rewrite Hserve, bind_Ret.
Qed.

(** C6: an event of the channel for which the storage returns piece data
    makes [Run] send, on the connection the request came from, one message
    of type "piece" whose payload is the four big-endian bytes of the index
    of the piece, the four big-endian bytes of its begin offset, and its
    data. *)
Theorem Run_sends_piece pre ev post t t1 p :
  Run pre t = Ret t1 →
  PieceRequest.Length (ev_r ev) > 0 →
  st_GetPiece (ev_r ev) (world t1) = Some p →
  let msg := NewWireMessage Piece (be32 (Index p) ++ be32 (Begin p) ++ Data p) in
  serve ev t1 = Ret (emit (PeerSent (ev_c ev) msg) t1) ∧
  trace (emit (PeerSent (ev_c ev) msg) t1) = trace t1 ++ [PeerSent (ev_c ev) msg] ∧
  Run (pre ++ ev :: post) t = Run post (emit (PeerSent (ev_c ev) msg) t1) ∧
  length (be32 (Index p)) = 4%nat ∧ length (be32 (Begin p)) = 4%nat ∧
  (0 <= Index p < 2 ^ 32 → be_value (be32 (Index p)) = Index p) ∧
  (0 <= Begin p < 2 ^ 32 → be_value (be32 (Begin p)) = Begin p).
Proof.
  intros Hpre Hlen Hget msg. pose proof (serve_answers ev t1 p Hlen Hget) as Hserve.
  split_and!; [done | done | | done | done | apply be32_value | apply be32_value].
  rewrite Run_app, Hpre, bind_Ret. cbn [Run]. by rewrite Hserve, bind_Ret.
Qed.
End RunFacts.

Lemma Run_closes_on_unservable_request_witness :
  Run [mkPieceEvent Demo.peer (PieceRequest.mk 3 0 0);
       mkPieceEvent Demo.peer (PieceRequest.mk 8 0 4)] Demo.t0 =
    Ret (mkTorrent () [5] ∅ [PeerClosed Demo.peer; PeerClosed Demo.peer]).
Proof.
  pose proof (Run_closes_on_unservable_request
                [] (mkPieceEvent Demo.peer (PieceRequest.mk 3 0 0))
                [mkPieceEvent Demo.peer (PieceRequest.mk 8 0 4)] Demo.t0 Demo.t0
                eq_refl (or_introl eq_refl)) as (_ & _ & Hfirst).
  pose proof (Run_closes_on_unservable_request
                [mkPieceEvent Demo.peer (PieceRequest.mk 3 0 0)]
                (mkPieceEvent Demo.peer (PieceRequest.mk 8 0 4)) [] Demo.t0
                (mkTorrent () [5] ∅ [PeerClosed Demo.peer])
                eq_refl (or_intror eq_refl)) as (_ & _ & Hsecond).
  exact Hsecond.
Defined.

Lemma Run_sends_piece_witness :
  Run [mkPieceEvent Demo.peer (PieceRequest.mk 3 0 4)] Demo.t0 =
    Ret (mkTorrent () [5] ∅
           [PeerSent Demo.peer
              (NewWireMessage Piece [0; 0; 0; 3; 0; 0; 0; 0; 1; 2; 3; 4])]).
Proof.
  pose proof (Run_sends_piece
                [] (mkPieceEvent Demo.peer (PieceRequest.mk 3 0 4)) [] Demo.t0 Demo.t0
                (mkPieceData 3 0 [1; 2; 3; 4]) eq_refl eq_refl eq_refl)
    as (_ & _ & Hrun & _).
  exact Hrun.
Defined.

(** ** The announce loop *)

Section AnnounceFacts.
Context {W Conn Tracker Peer : Type}.
Context `{!Network W Conn, !Storage W, !HandshakeIO W Conn,
          !Announcer W Tracker Peer}.

Implicit Types (t : Torrent W Conn) (a : Addr).

Lemma Announce_peers_announced peers : ∀ t,
  ∃ evs, announced peers t (Announce_peers peers t) evs.
Proof.
  induction peers as [| p peers IH]; intros t.
  - exists []. unfold announced. cbn. rewrite app_nil_r.
    split_and!; try done; [constructor | set_solver | set_solver].
  - cbn [Announce_peers].
    assert (∀ evs, announced peers t (Announce_peers peers t) evs →
                   (∀ a, peer_Resolve p = inl a →
                      addr_string a = addr_string Net_Addr ∨
                      is_Some (conns t !! addr_string a)) →
                   announced (p :: peers) t (Announce_peers peers t) evs) as Hskip.
    { intros evs (Htr & Hd & Hlen & Hnd & Hsp & Hrest & Hall) Hknown.
      split_and!; try done.
      intros p0 a0 [-> | Hin]%elem_of_cons Hres Hloc Hnone; [| by eauto].
      destruct (Hknown a0 Hres) as [| [b Hb]]; [done | congruence]. }
    destruct (peer_Resolve p) as [a | e] eqn:Hres; last first.
    { destruct (IH t) as [evs Hevs]. exists evs. apply Hskip; [done |].
      intros a0 [=]. }
    unfold HasConn. case_bool_decide as Hloc; cbn [orb].
    { destruct (IH t) as [evs Hevs]. exists evs. apply Hskip; [done |].
      intros a0 [= <-]. by left. }
    case_bool_decide as Hhas; cbn [orb].
    { destruct (IH t) as [evs Hevs]. exists evs. apply Hskip; [done |].
      intros a0 [= <-]. by right. }
    apply eq_None_not_Some in Hhas.
    set (t1 := emit (Spawned a (peer_ID p))
                 (with_conns (<[addr_string a := false]> (conns t)) t)).
    destruct (IH t1) as (evs & Htr & Hd & Hlen & Hnd & Hsp & Hrest & Hall).
    assert (addr_string a ∉ spawned evs) as Hfresh.
    { intros Hin. destruct (Hsp _ Hin) as (_ & Hnone & _).
      unfold t1 in Hnone. cbn in Hnone. by rewrite lookup_insert_eq in Hnone. }
    assert (spawned (Spawned a (peer_ID p) :: evs) = addr_string a :: spawned evs)
      as Hcons by done.
    exists (Spawned a (peer_ID p) :: evs). unfold announced. rewrite Hcons.
    split_and!.
    + rewrite Htr. unfold t1. cbn. by rewrite <- app_assoc.
    + done.
    + cbn [length]. by rewrite Hlen.
    + by constructor.
    + intros k [-> | Hin]%elem_of_cons.
      * split_and!; [done | done |].
        rewrite (Hrest _ Hfresh). unfold t1. cbn. apply lookup_insert_eq.
      * destruct (Hsp _ Hin) as (Hnl & Hnone & Hfalse).
        unfold t1 in Hnone. cbn in Hnone.
        split_and!; [done | | done].
        destruct (decide (addr_string a = k)) as [<- | Hne].
        -- by rewrite lookup_insert_eq in Hnone.
        -- by rewrite lookup_insert_ne in Hnone.
    + intros k Hk. apply not_elem_of_cons in Hk as [Hne Hk].
      rewrite (Hrest _ Hk). unfold t1. cbn. by rewrite lookup_insert_ne.
    + intros p0 a0 Hin Hres0 Hloc0 Hnone0. apply elem_of_cons.
      destruct (decide (addr_string a0 = addr_string a)) as [-> | Hne];
        [by left |].
      right. apply elem_of_cons in Hin as [-> | Hin].
      * congruence.
      * apply (Hall p0 a0); try done.
        unfold t1. cbn. by rewrite lookup_insert_ne.
Qed.

(** C10: in one [Announce], a connection attempt is started only for a
    candidate address that differs from the local address and was not a
    key of the connection set (neither reserved nor active); the address is
    then reserved as [false].  Every candidate that resolves to such an
    address gets an attempt, and no address gets two: the started attempts
    are pairwise distinct, so two candidates that resolve to one address
    yield one attempt.  [Announce] itself dials nothing. *)
Theorem Announce_dials_new_addresses_once (tr : Tracker) (event : string) t :
  ∃ evs,
    trace (Announce tr event t) = trace t ++ evs ∧
    dials evs = [] ∧
    length (spawned evs) = length evs ∧
    NoDup (spawned evs) ∧
    (∀ k, k ∈ spawned evs →
       k ≠ addr_string Net_Addr ∧ conns t !! k = None ∧
       conns (Announce tr event t) !! k = Some false) ∧
    (∀ k, k ∉ spawned evs → conns (Announce tr event t) !! k = conns t !! k) ∧
    (∀ w peers p a,
       tr_Announce tr
         (Request.mk (st_Infohash (world t)) (id t) Net_Addr 6881 event 10
                     (st_DownloadRemaining (world t)) true)
         (world t) = (w, inl peers) →
       p ∈ peers → peer_Resolve p = inl a →
       addr_string a ≠ addr_string Net_Addr → conns t !! addr_string a = None →
       addr_string a ∈ spawned evs).
Proof.
  unfold Announce. cbv zeta.
  destruct (tr_Announce _ _ _) as [w [peers | e]].
  - destruct (Announce_peers_announced peers (with_world w t))
      as (evs & Htr & Hd & Hlen & Hnd & Hsp & Hrest & Hall).
    exists evs. split_and!; try done.
    intros w' peers' p a [= <- <-]. apply Hall.
  - exists []. cbn. rewrite app_nil_r.
    split_and!; try done; [constructor | set_solver].
Qed.
End AnnounceFacts.

Lemma Announce_dials_new_addresses_once_witness :
  trace (Announce () "started" Demo.t0) =
    [Spawned (mkAddr "i2p" "a.i2p") []; Spawned (mkAddr "i2p" "b.i2p") []] ∧
  trace (Announce () "started" Demo.t1) = [Spawned (mkAddr "i2p" "b.i2p") []] ∧
  ∃ evs, trace (Announce () "started" Demo.t0) = trace Demo.t0 ++ evs ∧
         NoDup (spawned evs) ∧ "b.i2p"%string ∈ spawned evs.
Proof.
  split; [reflexivity |]. split; [reflexivity |].
  destruct (Announce_dials_new_addresses_once (Conn := nat) () "started" Demo.t0)
    as (evs & Htr & _ & _ & Hnd & _ & _ & Hall).
  exists evs. split_and!; [done | done |].
  apply (Hall () ["a.i2p"; "local.i2p"; "a.i2p"; "b.i2p"]%string
              "b.i2p"%string (mkAddr "i2p" "b.i2p"));
    [reflexivity | set_solver | reflexivity | done | reflexivity].
Defined.

(** ** The model at work *)

Example AddPeer_same_swarm :
  AddPeer Demo.same_swarm [] Demo.t0 =
    (mkTorrent () [5] {[ "b.i2p"%string := true ]}
       [Dialed "i2p" "b.i2p"; PeerStarted (makePeerConn 2%nat [8]);
        PeerSent (makePeerConn 2%nat [8]) (NewWireMessage BitField [])],
     None).
Proof. reflexivity. Qed.

Example AddPeer_refused :
  AddPeer Demo.dead [] Demo.t0 =
    (mkTorrent () [5] ∅ [Dialed "i2p" "dead.i2p"], Some "refused"%string).
Proof. reflexivity. Qed.

Example nextOffset_short_piece : nextOffset (blank_piece 3) = Panic.
Proof. vm_compute. reflexivity. Qed.

Example nextOffset_nothing_left :
  nextOffset (mkCachedPiece (mkPieceData 0 0 []) []) =
    Ret (false, 0, mkCachedPiece (mkPieceData 0 0 []) []).
Proof. vm_compute. reflexivity. Qed.

Example put_then_done :
  (p ← put (blank_piece 4) 0 [7; 7]; p ← put p 2 [8; 8]; Ret (Data (piece p), done p))
  = Ret ([7; 7; 8; 8], true).
Proof. vm_compute. reflexivity. Qed.

Example put_part_not_done :
  (p ← put (blank_piece 4) 1 [7; 7]; Ret (progress p, done p))
  = Ret ([Missing; Obtained; Obtained; Missing], false).
Proof. vm_compute. reflexivity. Qed.

Example put_past_the_end : put (blank_piece 4) 3 [7; 7] = Ret (blank_piece 4).
Proof. vm_compute. reflexivity. Qed.

Example cancel_resets :
  (p ← put (blank_piece 4) 0 [7; 7; 7; 7]; p ← cancel p 1 2; Ret (progress p))
  = Ret [Obtained; Missing; Missing; Obtained].
Proof. vm_compute. reflexivity. Qed.

(** ** More on [nextOffset] *)

(** Below any bound, either some stride is the first claimable one or no
    stride is claimable. *)
Lemma first_missing_below pr (n : nat) :
  (∃ o, first_missing pr o) ∨
  (∀ o, o < Z.of_nat n * BlockSize → ¬ stride_missing pr o).
Proof.
  pose proof BlockSize_val as HB.
  induction n as [| n [Hsome | Hnone]].
  - right. intros o Ho (_ & Hpos & _). lia.
  - by left.
  - destruct (decide (pr !! Z.to_nat (Z.of_nat n * BlockSize) = Some Missing))
      as [Hhit | Hmiss].
    + left. exists (Z.of_nat n * BlockSize). split; [| done].
      split_and!; [by apply Z.divide_factor_r | lia | done].
    + right. intros o Ho Hs. pose proof Hs as ([k ->] & Hpos & Hlook).
      destruct (decide (k = Z.of_nat n)) as [-> | Hne]; [done |].
      apply (Hnone (k * BlockSize)); [lia | done].
Qed.

Lemma first_missing_or_none pr :
  (∃ o, first_missing pr o) ∨ (∀ o, ¬ stride_missing pr o).
Proof.
  pose proof BlockSize_val as HB.
  destruct (first_missing_below pr (S (length pr))) as [| Hnone]; [by left |].
  right. intros o Hs. apply (Hnone o); [| done].
  apply stride_missing_lt in Hs. unfold len in Hs. lia.
Qed.

(** A call that returns an offset inside the array has claimed the first
    claimable stride, which lies within the array. *)
Lemma nextOffset_inv p has idx p' :
  len (progress p) < 2 ^ 32 →
  nextOffset p = Ret (has, idx, p') → idx < len (progress p) →
  first_missing (progress p) idx ∧ idx + BlockSize <= len (progress p) ∧
  p' = set_progress p (set_range idx (idx + BlockSize) Pending (progress p)).
Proof.
  pose proof BlockSize_val as HB. intros Hw Hcall Hin.
  destruct (first_missing_or_none (progress p)) as [[o Hfirst] | Hnone].
  - destruct (decide (o + BlockSize <= len (progress p))) as [Hfits | Hpart].
    + rewrite (nextOffset_claims p o) in Hcall by done.
      injection Hcall as <- <- <-. done.
    + by rewrite (nextOffset_panics p o) in Hcall by (done || lia).
  - destruct (decide (len (progress p) <= 2 ^ 32 - BlockSize)) as [Hsmall | Hbig].
    + rewrite nextOffset_none in Hcall by done. injection Hcall as <- <- <-.
      exfalso. revert Hin. rewrite HB.
      pose proof (Z.div_mod (len (progress p) + 16384 - 1) 16384 ltac:(lia)).
      pose proof (Z.mod_pos_bound (len (progress p) + 16384 - 1) 16384 ltac:(lia)).
      lia.
    + by rewrite nextOffset_diverges in Hcall by (done || lia).
Qed.

Lemma cancelled_first_facts (n : nat) :
  Z.of_nat n = BlockSize →
  len (progress (cancelled_first n)) = BlockSize ∧
  first_missing (progress (cancelled_first n)) 0.
Proof.
  pose proof BlockSize_val as HB. intros Hn. cbn [cancelled_first progress]. split.
  - unfold len. rewrite length_insert, length_replicate. lia.
  - split; [| intros o' Hneg (_ & Hpos & _); lia].
    split_and!; [apply Z.divide_0_r | lia |].
    change (Z.to_nat 0) with 0%nat.
    apply list_lookup_insert_eq. rewrite length_replicate. lia.
Qed.

(** X1: on a status array shorter than [2^32], when the first stride whose
    first byte is [Missing] lies wholly within the array, [nextOffset]
    returns its offset and sets every byte of that stride to [Pending],
    whatever the byte was; the other status bytes and the piece buffer are
    as before. *)
Theorem nextOffset_claims_first_claimable_stride p o :
  len (progress p) < 2 ^ 32 →
  first_missing (progress p) o →
  o + BlockSize <= len (progress p) →
  ∃ has p',
    nextOffset p = Ret (has, o, p') ∧ piece p' = piece p ∧
    length (progress p') = length (progress p) ∧
    (∀ j : nat, o <= Z.of_nat j < o + BlockSize → progress p' !! j = Some Pending) ∧
    (∀ j : nat, ¬ (o <= Z.of_nat j < o + BlockSize) →
       progress p' !! j = progress p !! j).
Proof.
  intros Hw Hfirst Hin. pose proof (stride_missing_lt _ _ (proj1 Hfirst)) as Ho.
  eexists _, _. split; [by apply nextOffset_claims |].
  cbn [set_progress piece progress]. split_and!.
  - done.
  - apply set_range_length.
  - intros j Hj. apply set_range_lookup_in; unfold len in *; lia.
  - intros j Hj. by apply set_range_lookup_out.
Qed.

Lemma nextOffset_claims_first_claimable_stride_witness :
  ∃ has p',
    nextOffset (cancelled_first (Z.to_nat BlockSize)) = Ret (has, 0, p') ∧
    (∀ j : nat, 0 <= Z.of_nat j < 0 + BlockSize → progress p' !! j = Some Pending).
Proof.
  destruct (cancelled_first_facts (Z.to_nat BlockSize)) as [Hlen Hfirst].
  { apply Z2Nat.id. by rewrite BlockSize_val. }
  destruct (nextOffset_claims_first_claimable_stride
              (cancelled_first (Z.to_nat BlockSize)) 0)
    as (has & p' & Hcall & _ & _ & Hin & _).
  - rewrite Hlen, BlockSize_val. lia.
  - exact Hfirst.
  - rewrite Hlen. lia.
  - exists has, p'. split; [exact Hcall | exact Hin].
Defined.



(** X3: on a status array of at most [2^32 - BlockSize] bytes in which no
    stride starts with [Missing], [nextOffset] changes nothing and returns
    the first multiple of [BlockSize] that is not below the length of the
    array: the offset it returns is then not an offset into the array. *)
Theorem nextOffset_nothing_claimable p :
  len (progress p) <= 2 ^ 32 - BlockSize →
  (∀ o, ¬ stride_missing (progress p) o) →
  ∃ idx,
    nextOffset p = Ret (false, idx, p) ∧
    (BlockSize | idx) ∧ len (progress p) <= idx < len (progress p) + BlockSize.
Proof.
  pose proof BlockSize_val as HB. intros Hw Hnone.
  pose proof (len_nonneg (progress p)) as Hl.
  eexists. split; [by apply nextOffset_none |].
  split; [apply Z.divide_factor_r |]. rewrite HB.
  pose proof (Z.div_mod (len (progress p) + 16384 - 1) 16384 ltac:(lia)).
  pose proof (Z.mod_pos_bound (len (progress p) + 16384 - 1) 16384 ltac:(lia)).
  lia.
Qed.

Lemma nextOffset_nothing_claimable_witness :
  ∃ idx, nextOffset half_done_piece = Ret (false, idx, half_done_piece) ∧
         (BlockSize | idx) ∧
         len (progress half_done_piece) <= idx < len (progress half_done_piece) + BlockSize.
Proof.
  apply nextOffset_nothing_claimable.
  - by vm_compute.
  - intros o (_ & _ & Hlook). unfold half_done_piece in Hlook. cbn [progress] in Hlook.
    destruct (Z.to_nat o) as [| [| [| ?]]]; discriminate.
Defined.

(** X5: two calls of [nextOffset] in a row that both return an offset
    inside the array return different strides, the second one after the
    first: no stride is handed out twice unless [cancel] intervenes. *)
Theorem nextOffset_twice_distinct_strides p has1 o1 p1 has2 o2 p2 :
  len (progress p) < 2 ^ 32 →
  nextOffset p = Ret (has1, o1, p1) → o1 < len (progress p) →
  nextOffset p1 = Ret (has2, o2, p2) → o2 < len (progress p) →
  o1 + BlockSize <= o2.
Proof.
  pose proof BlockSize_val as HB. intros Hw Hcall1 Hin1 Hcall2 Hin2.
  destruct (nextOffset_inv _ _ _ _ Hw Hcall1 Hin1) as (Hfirst1 & Hfit1 & ->).
  assert (len (progress (set_progress p
            (set_range o1 (o1 + BlockSize) Pending (progress p))))
          = len (progress p)) as Hlen.
  { unfold len. cbn [set_progress progress]. by rewrite set_range_length. }
  destruct (nextOffset_inv _ _ _ _ ltac:(by rewrite Hlen) Hcall2
              ltac:(by rewrite Hlen)) as (Hfirst2 & _ & _).
  destruct Hfirst2 as [(Hdiv2 & Hpos2 & Hlook2) _].
  cbn [set_progress progress] in Hlook2.
  destruct (decide (o1 + BlockSize <= o2)) as [| Hlt]; [done | exfalso].
  destruct (decide (o1 <= o2)) as [Hge | Hbelow].
  - rewrite set_range_lookup_in in Hlook2; [done | lia |].
    unfold len in *. lia.
  - rewrite set_range_lookup_out in Hlook2 by lia.
    destruct Hfirst1 as [_ Hmin]. apply (Hmin o2); [lia |].
    by split_and!.
Qed.

(** ** More on [put], [cancel] and [done] *)

Lemma u32_wrapped x : 2 ^ 32 <= x < 2 ^ 33 → u32 x = x - 2 ^ 32.
Proof.
  intros Hx. unfold u32. symmetry. apply (Z.mod_unique x (2 ^ 32) 1); lia.
Qed.

Lemma put_loop_panic n : ∀ pr offset idx,
  0 <= offset → 0 <= idx →
  offset + idx <= len pr → len pr < 2 ^ 32 →
  len pr < offset + idx + Z.of_nat n →
  put_loop n pr offset idx = Panic.
Proof.
  induction n as [| n IH]; intros pr offset idx Hoff Hidx Hlo Hw Hhi; [lia |].
  cbn [put_loop]. rewrite (u32_small idx) by lia.
  rewrite (u32_small (idx + offset)) by lia.
  destruct (decide (idx + offset < len pr)) as [Hin | Hout].
  - rewrite store_Ret by lia. rewrite bind_Ret.
    apply IH; rewrite ?len_insert; lia.
  - by rewrite store_Panic by lia.
Qed.

(** Counting down from [length], the loop of [cancel] first writes the
    wrapped indices and then reaches index [2^32 - 1]. *)
Lemma cancel_loop_panic (d : nat) : ∀ fuel pr offset length,
  0 <= offset < 2 ^ 32 → length < 2 ^ 32 → len pr < 2 ^ 32 →
  offset + length = 2 ^ 32 + Z.of_nat d → Z.of_nat d <= len pr →
  (d < fuel)%nat →
  cancel_loop fuel pr offset length = Panic.
Proof.
  induction d as [| d IH]; intros fuel pr offset length Hoff Hl32 Hw Hsum Hd Hfuel.
  - destruct fuel as [| fuel]; [lia |]. cbn [cancel_loop].
    rewrite bool_decide_eq_true_2 by lia. cbv zeta.
    rewrite (u32_small (length - 1)) by lia.
    rewrite (u32_small (offset + (length - 1))) by lia.
    by rewrite store_Panic by lia.
  - destruct fuel as [| fuel]; [lia |]. cbn [cancel_loop].
    rewrite bool_decide_eq_true_2 by lia. cbv zeta.
    rewrite (u32_small (length - 1)) by lia.
    rewrite (u32_wrapped (offset + (length - 1))) by lia.
    rewrite store_Ret by lia. rewrite bind_Ret.
    apply IH; rewrite ?len_insert; lia.
Qed.

(** X6: a [put] whose range lies within the status array, on a piece whose
    buffer is as long as its status array (shorter than [2^32]), returns;
    the buffer then holds the data at the offset and is as before elsewhere,
    exactly the status bytes of the range are [Obtained], and the piece
    still has one status byte per buffer byte. *)
Theorem put_in_range_writes_and_marks p offset data :
  wf p → 0 <= offset → offset + len data <= len (progress p) →
  ∃ p',
    put p offset data = Ret p' ∧ wf p' ∧
    Index (piece p') = Index (piece p) ∧ Begin (piece p') = Begin (piece p) ∧
    Data (piece p') =
      take (Z.to_nat offset) (Data (piece p)) ++ data ++
      drop (Z.to_nat offset + length data) (Data (piece p)) ∧
    length (progress p') = length (progress p) ∧
    (∀ j : nat, offset <= Z.of_nat j < offset + len data →
       progress p' !! j = Some Obtained) ∧
    (∀ j : nat, ¬ (offset <= Z.of_nat j < offset + len data) →
       progress p' !! j = progress p !! j).
Proof.
  intros Hwf Hoff Hin. rewrite put_in_bounds by done.
  destruct Hwf as [Hsame Hw]. eexists. split; [done |].
  unfold wf. cbn -[set_range write_at]. split_and!; try done.
  - rewrite set_range_length, write_at_length; unfold len in *; (done || lia).
  - unfold len. by rewrite set_range_length.
  - apply set_range_length.
  - intros j Hj. apply set_range_lookup_in; unfold len in *; lia.
  - intros j Hj. by apply set_range_lookup_out.
Qed.

Lemma put_in_range_writes_and_marks_witness :
  ∃ p', put half_done_piece 1 [8; 9] = Ret p' ∧
        Data (piece p') = [7; 8; 9] ∧ progress p' !! 1%nat = Some Obtained.
Proof.
  destruct (put_in_range_writes_and_marks half_done_piece 1 [8; 9])
    as (p' & Hput & _ & _ & _ & Hdata & _ & Hin & _);
    [by vm_compute | lia | by vm_compute |].
  exists p'. split_and!; [exact Hput | exact Hdata |].
  apply Hin. by vm_compute.
Defined.

(** X7: a [put] whose range ends past the status array, with an end that
    fits 32 bits, changes nothing. *)
Theorem put_past_end_is_noop p offset data :
  0 <= offset → len (progress p) < 2 ^ 32 →
  len (progress p) < offset + len data < 2 ^ 32 →
  put p offset data = Ret p.
Proof.
  intros Hoff Hw Hout. apply put_out_of_range; [done | lia |].
  rewrite u32_small; [lia |]. pose proof (len_nonneg (progress p)). lia.
Qed.

Lemma put_past_end_is_noop_witness :
  put half_done_piece 2 [8; 9] = Ret half_done_piece.
Proof. apply put_past_end_is_noop; [lia | by vm_compute | by vm_compute]. Defined.

(** X8: when offset plus length of a [put] reaches [2^32], the bounds
    check compares the wrapped sum: if the wrapped sum exceeds the length
    of the status array the call changes nothing, and otherwise it panics,
    at the slice of the buffer or in the marking loop. *)
Theorem put_wrapped_sum_panics_or_skips p offset data :
  wf p → 0 <= offset < 2 ^ 32 → len data < 2 ^ 32 →
  2 ^ 32 <= offset + len data →
  put p offset data =
    if bool_decide (offset + len data - 2 ^ 32 <= len (progress p))
    then Panic else Ret p.
Proof.
  intros [Hsame Hw] Hoff Hd Hwrap.
  pose proof (len_nonneg (progress p)) as Hl. pose proof (len_nonneg data) as Hld.
  unfold put. cbv zeta.
  rewrite (u32_small (len (progress p))) by lia.
  rewrite (u32_small (len data)) by lia.
  rewrite (u32_wrapped (offset + len data)) by lia.
  case_bool_decide as Hcheck; [| done].
  unfold slice_from. case_bool_decide as Hslice; [| done].
  rewrite bind_Ret.
  rewrite put_loop_panic; [done | lia | lia | | lia | unfold len in *; lia].
  unfold len in *. lia.
Qed.

Lemma put_wrapped_sum_panics_or_skips_witness :
  put half_done_piece 4294967295 [8; 9] = Panic ∧
  put half_done_piece 4294967295 [8; 9; 8; 9; 8] = Ret half_done_piece.
Proof.
  split.
  - by rewrite (put_wrapped_sum_panics_or_skips half_done_piece 4294967295 [8; 9])
      by (by vm_compute || lia).
  - by rewrite (put_wrapped_sum_panics_or_skips half_done_piece 4294967295
                  [8; 9; 8; 9; 8]) by (by vm_compute || lia).
Defined.

(** X9: a [cancel] whose range lies within the status array (shorter than
    [2^32]) sets exactly the status bytes of the range to [Missing] and
    leaves the piece buffer as it is: data already written stays. *)
Theorem cancel_in_range_resets_status_only p offset length :
  len (progress p) < 2 ^ 32 → 0 <= offset → 0 <= length →
  offset + length <= len (progress p) →
  ∃ p',
    cancel p offset length = Ret p' ∧ piece p' = piece p ∧
    Datatypes.length (progress p') = Datatypes.length (progress p) ∧
    (∀ j : nat, offset <= Z.of_nat j < offset + length →
       progress p' !! j = Some Missing) ∧
    (∀ j : nat, ¬ (offset <= Z.of_nat j < offset + length) →
       progress p' !! j = progress p !! j).
Proof.
  intros Hw Hoff Hlen Hin.
  eexists. split; [by apply cancel_in_bounds |].
  cbn [set_progress piece progress]. split_and!.
  - done.
  - apply set_range_length.
  - intros j Hj. apply set_range_lookup_in; unfold len in *; lia.
  - intros j Hj. by apply set_range_lookup_out.
Qed.

Lemma cancel_in_range_resets_status_only_witness :
  ∃ p', cancel half_done_piece 0 2 = Ret p' ∧
        Data (piece p') = [7; 0; 0] ∧ progress p' !! 0%nat = Some Missing.
Proof.
  destruct (cancel_in_range_resets_status_only half_done_piece 0 2)
    as (p' & Hcancel & Hpiece & _ & Hin & _);
    [by vm_compute | lia | lia | by vm_compute |].
  exists p'. split_and!; [exact Hcancel | by rewrite Hpiece |].
  apply Hin. by vm_compute.
Defined.

(** X10: a [cancel] with a non-empty range whose offset plus length reaches
    [2^32] is checked on the wrapped sum: if the wrapped sum exceeds the
    length of the status array the call changes nothing, and otherwise it
    panics when its loop, counting down, reaches index [2^32 - 1]. *)
Theorem cancel_wrapped_sum_panics_or_skips p offset length :
  len (progress p) < 2 ^ 32 → 0 <= offset < 2 ^ 32 → 0 <= length < 2 ^ 32 →
  2 ^ 32 <= offset + length →
  cancel p offset length =
    if bool_decide (offset + length - 2 ^ 32 <= len (progress p))
    then Panic else Ret p.
Proof.
  intros Hw Hoff Hlen Hwrap. pose proof (len_nonneg (progress p)) as Hl.
  unfold cancel. cbv zeta.
  rewrite (u32_small (len (progress p))) by lia.
  rewrite (u32_wrapped (offset + length)) by lia.
  case_bool_decide as Hcheck; [| done].
  rewrite (cancel_loop_panic (Z.to_nat (offset + length - 2 ^ 32))); [done | ..]; lia.
Qed.

Lemma cancel_wrapped_sum_panics_or_skips_witness :
  cancel half_done_piece 4294967295 2 = Panic ∧
  cancel half_done_piece 4294967295 5 = Ret half_done_piece.
Proof.
  split.
  - by rewrite (cancel_wrapped_sum_panics_or_skips half_done_piece 4294967295 2)
      by (by vm_compute || lia).
  - by rewrite (cancel_wrapped_sum_panics_or_skips half_done_piece 4294967295 5)
      by (by vm_compute || lia).
Defined.

(** X11: on a range of [Missing] bytes, [cancel] after [put] gives back the
    status array as it was before the [put], while the data stays in the
    piece buffer: the bytes can be claimed again although they were
    received. *)
Theorem put_then_cancel_restores_status p offset data :
  wf p → 0 <= offset → offset + len data <= len (progress p) →
  (∀ j : nat, offset <= Z.of_nat j < offset + len data →
     progress p !! j = Some Missing) →
  ∃ p1 p2,
    put p offset data = Ret p1 ∧ cancel p1 offset (len data) = Ret p2 ∧
    progress p2 = progress p ∧ piece p2 = piece p1 ∧
    Data (piece p1) = write_at (Data (piece p)) offset data.
Proof.
  intros Hwf Hoff Hin Hmiss. pose proof (len_nonneg data) as Hd.
  rewrite put_in_bounds by done. eexists _, _. split; [done |].
  destruct Hwf as [_ Hw].
  rewrite cancel_in_bounds; cbn [progress];
    [| unfold len in *; by rewrite set_range_length | done | done
     | unfold len in *; by rewrite set_range_length].
  split; [done |]. cbn [set_progress progress piece Data]. split_and!; [| done | done].
  apply list_eq. intros j.
  destruct (decide (offset <= Z.of_nat j < offset + len data)) as [Hj | Hj].
  - rewrite set_range_lookup_in, Hmiss; [done | done | done |].
    rewrite set_range_length. unfold len in *. lia.
  - by rewrite !set_range_lookup_out.
Qed.

Lemma put_then_cancel_restores_status_witness :
  ∃ p1 p2,
    put (blank_piece 4) 1 [8; 9] = Ret p1 ∧ cancel p1 1 2 = Ret p2 ∧
    progress p2 = progress (blank_piece 4) ∧ Data (piece p2) = [0; 8; 9; 0].
Proof.
  destruct (put_then_cancel_restores_status (blank_piece 4) 1 [8; 9])
    as (p1 & p2 & Hput & Hcancel & Hpr & Hpiece & Hdata);
    [by vm_compute | lia | by vm_compute | |].
  - intros j Hj. assert (j = 1%nat ∨ j = 2%nat) as [-> | ->];
      [revert Hj; unfold len; cbn [length]; lia | done | done].
  - exists p1, p2. split_and!; [exact Hput | exact Hcancel | exact Hpr |].
    by rewrite Hpiece, Hdata.
Defined.

(** X12: a piece that is [done] stays [done] under an in-range [put], and
    stops being [done] under a [cancel] of a non-empty in-range span. *)
Theorem done_kept_by_put_lost_by_cancel p offset data length :
  wf p → done p = true → 0 <= offset →
  (offset + len data <= len (progress p) →
   ∃ p', put p offset data = Ret p' ∧ done p' = true) ∧
  (0 < length → offset + length <= len (progress p) →
   ∃ p', cancel p offset length = Ret p' ∧ done p' = false).
Proof.
  intros Hwf Hdone Hoff. pose proof Hwf as [_ Hw].
  apply done_loop_spec in Hdone. rewrite Forall_lookup in Hdone. split.
  - intros Hin. rewrite put_in_bounds by done. eexists. split; [done |].
    apply done_loop_spec, Forall_lookup. cbn [progress]. intros j b.
    rewrite set_range_lookup.
    destruct (progress p !! j) as [x |] eqn:Hx; [| done].
    cbn. intros [= <-]. case_bool_decide; [done | eauto].
  - intros Hpos Hin. rewrite cancel_in_bounds by (done || lia).
    eexists. split; [done |].
    apply not_true_is_false. intros Hd.
    apply done_loop_spec in Hd. rewrite Forall_lookup in Hd.
    cbn [set_progress progress] in Hd.
    specialize (Hd (Z.to_nat offset) Missing). discriminate Hd.
    apply set_range_lookup_in; unfold len in *; lia.
Qed.

Lemma done_kept_by_put_lost_by_cancel_witness :
  (∃ p', put done_piece 0 [5] = Ret p' ∧ done p' = true) ∧
  (∃ p', cancel done_piece 1 1 = Ret p' ∧ done p' = false).
Proof.
  destruct (done_kept_by_put_lost_by_cancel done_piece 0 [5] 1)
    as [Hput _]; [by vm_compute | reflexivity | lia |].
  destruct (done_kept_by_put_lost_by_cancel done_piece 1 [5] 1)
    as [_ Hcancel]; [by vm_compute | reflexivity | lia |].
  split; [apply Hput | apply Hcancel]; (lia || by vm_compute).
Defined.

(** Claiming strides in order leaves none unclaimed: with all strides
    before [m] not claimable and [d] whole strides from [m] to the end. *)
Lemma nextOffset_exhausts (d : nat) : ∀ (m : nat) p,
  len (progress p) = (Z.of_nat m + Z.of_nat d) * BlockSize →
  len (progress p) < 2 ^ 32 →
  (∀ k : nat, (k < m)%nat →
     progress p !! Z.to_nat (Z.of_nat k * BlockSize) ≠ Some Missing) →
  ∃ (n : nat) p',
    (n <= d)%nat ∧ nextOffset_times n p = Ret p' ∧
    (∀ o, ¬ stride_missing (progress p') o) ∧
    length (progress p') = length (progress p) ∧ piece p' = piece p.
Proof.
  pose proof BlockSize_val as HB.
  induction d as [| d IH]; intros m p Hlen Hw Hskip.
  - exists 0%nat, p. split_and!; try done.
    intros o Hs. pose proof (stride_missing_lt _ _ Hs) as Ho.
    destruct Hs as ([k ->] & Hpos & Hlook).
    apply (Hskip (Z.to_nat k)); [lia |]. by rewrite Z2Nat.id by lia.
  - assert (∀ p1, length (progress p1) = length (progress p) →
              (∀ k : nat, (k < S m)%nat →
                 progress p1 !! Z.to_nat (Z.of_nat k * BlockSize) ≠ Some Missing) →
              ∃ (n : nat) p', (n <= d)%nat ∧ nextOffset_times n p1 = Ret p' ∧
                (∀ o, ¬ stride_missing (progress p') o) ∧
                length (progress p') = length (progress p) ∧ piece p' = piece p1)
      as Hnext.
    { intros p1 Hlen1 Hskip1.
      destruct (IH (S m) p1) as (n & p' & Hn & Htimes & Hnone & Hl & Hp); try done.
      - unfold len in *. rewrite Hlen1. lia.
      - unfold len in *. by rewrite Hlen1.
      - exists n, p'. split_and!; try done. by rewrite Hl. }
    destruct (decide (progress p !! Z.to_nat (Z.of_nat m * BlockSize) = Some Missing))
      as [Hm | Hm].
    + assert (first_missing (progress p) (Z.of_nat m * BlockSize)) as Hfirst.
      { split.
        - split_and!; [by apply Z.divide_factor_r | lia | done].
        - intros o' Hlt ([k' ->] & Hpos & Hlook').
          apply (Hskip (Z.to_nat k')); [lia |]. by rewrite Z2Nat.id by lia. }
      pose proof (nextOffset_claims p _ Hw Hfirst ltac:(lia)) as Hcall.
      set (p1 := set_progress p _) in Hcall.
      destruct (Hnext p1) as (n & p' & Hn & Htimes & Hnone & Hl & Hp).
      * unfold p1. cbn. apply set_range_length.
      * intros k Hk. unfold p1. cbn.
        destruct (decide (k = m)) as [-> | Hne].
        -- rewrite set_range_lookup_in; [done | lia |].
           apply lookup_lt_Some in Hm. lia.
        -- rewrite set_range_lookup_out; [apply Hskip; lia | lia].
      * exists (S n), p'. split_and!; try done; [lia |].
        cbn [nextOffset_times]. by rewrite Hcall, bind_Ret.
    + destruct (Hnext p) as (n & p' & Hn & Htimes & Hnone & Hl & Hp); [done | |].
      * intros k Hk. destruct (decide (k = m)) as [-> | Hne]; [done |].
        apply Hskip. lia.
      * exists n, p'. split_and!; try done. lia.
Qed.

(** X13: on a status array made of whole strides (shorter than [2^32]),
    calling [nextOffset] again and again never panics and hands out every
    claimable stride: after at most as many calls as there are strides, no
    stride starts with [Missing] any more, and the piece buffer is as it
    was. *)
Theorem nextOffset_hands_out_every_stride p :
  (BlockSize | len (progress p)) → len (progress p) < 2 ^ 32 →
  ∃ (n : nat) p',
    Z.of_nat n <= len (progress p) / BlockSize ∧
    nextOffset_times n p = Ret p' ∧
    (∀ o, ¬ stride_missing (progress p') o) ∧
    length (progress p') = length (progress p) ∧ piece p' = piece p.
Proof.
  pose proof BlockSize_val as HB. intros [k Hk] Hw.
  pose proof (len_nonneg (progress p)) as Hl.
  assert (len (progress p) / BlockSize = k) as Hquot
    by (rewrite Hk; apply Z.div_mul; lia).
  destruct (nextOffset_exhausts (Z.to_nat k) 0%nat p)
    as (n & p' & Hn & Htimes & Hnone & Hlen & Hpiece); [lia | done | lia |].
  exists n, p'. split_and!; try done. lia.
Qed.

Lemma blank_piece_len (n : nat) : len (progress (blank_piece n)) = Z.of_nat n.
Proof. unfold len. cbn [blank_piece progress]. by rewrite length_replicate. Qed.

Lemma nextOffset_hands_out_every_stride_witness :
  ∃ (n : nat) p',
    Z.of_nat n <= len (progress two_blocks) / BlockSize ∧
    nextOffset_times n two_blocks = Ret p' ∧
    (∀ o, ¬ stride_missing (progress p') o).
Proof.
  assert (len (progress two_blocks) = 2 * BlockSize) as Hlen.
  { unfold two_blocks. rewrite blank_piece_len. apply Z2Nat.id.
    by rewrite BlockSize_val. }
  destruct (nextOffset_hands_out_every_stride two_blocks)
    as (n & p' & Hn & Htimes & Hnone & _).
  - rewrite Hlen. by apply Z.divide_factor_r.
  - rewrite Hlen, BlockSize_val. lia.
  - exists n, p'. split_and!; [exact Hn | exact Htimes | exact Hnone].
Defined.

(** ** More on peer admission *)

Section AdmissionFacts.
Context {W Conn : Type}.
Context `{!Network W Conn, !Storage W, !HandshakeIO W Conn}.

Implicit Types (t : Torrent W Conn) (a : Addr) (pid : PeerID).

(** The three ways a call of [AddPeer] can go. *)
Lemma AddPeer_cases a pid t :
  id (AddPeer a pid t).1 = id t ∧
  ((∃ w1 e,
      Net_Dial (addr_network a) (addr_string a) (world t) = (w1, inr e) ∧
      (AddPeer a pid t).2 = Some e ∧
      conns (AddPeer a pid t).1 = conns t ∧
      trace (AddPeer a pid t).1 =
        trace t ++ [Dialed (addr_network a) (addr_string a)]) ∨
   (∃ w1 c,
      Net_Dial (addr_network a) (addr_string a) (world t) = (w1, inl c) ∧
      conns (AddPeer a pid t).1 = conns t ∧
      trace (AddPeer a pid t).1 =
        trace t ++ [Dialed (addr_network a) (addr_string a); ConnClosed c]) ∨
   (∃ w1 c peer_id,
      Net_Dial (addr_network a) (addr_string a) (world t) = (w1, inl c) ∧
      (AddPeer a pid t).2 = None ∧
      conns (AddPeer a pid t).1 = <[addr_string a := true]> (conns t) ∧
      trace (AddPeer a pid t).1 =
        trace t ++ [Dialed (addr_network a) (addr_string a);
                    PeerStarted (makePeerConn c peer_id);
                    PeerSent (makePeerConn c peer_id)
                      (st_BitfieldMessage (world (AddPeer a pid t).1))])).
Proof.
  unfold AddPeer.
  destruct (Net_Dial _ _ _) as [w1 [c | e]] eqn:Hdial; cbn.
  2: { split; [done |]. left. by exists w1, e. }
  destruct (Handshake_Send _ _ _) as [w2 [e |]]; cbn.
  { split; [done |]. right. left. exists w1, c.
    split_and!; [done | done | by rewrite <- app_assoc]. }
  destruct (Handshake_Recv _ _ _) as [[w3 h'] [e |]]; cbn.
  { split; [done |]. right. left. exists w1, c.
    split_and!; [done | done | by rewrite <- app_assoc]. }
  case_bool_decide; cbn.
  - split; [done |]. right. right. exists w1, c, (Handshake.PeerID h').
    split_and!; [done | done | done | by rewrite <- !app_assoc].
  - split; [done |]. right. left. exists w1, c.
    split_and!; [done | done | by rewrite <- app_assoc].
Qed.

Lemma AddPeer_mismatch a pid t c w1 w2 w3 h' :
  Net_Dial (addr_network a) (addr_string a) (world t) = (w1, inl c) →
  Handshake_Send (Handshake.mk (st_Infohash w1) (id t)) c w1 = (w2, None) →
  Handshake_Recv (Handshake.mk (st_Infohash w1) (id t)) c w2 = (w3, h', None) →
  Handshake.Infohash h' ≠ st_Infohash w1 →
  AddPeer a pid t =
    (mkTorrent w3 (id t) (conns t)
       ((trace t ++ [Dialed (addr_network a) (addr_string a)]) ++ [ConnClosed c]),
     None).
Proof.
  intros Hdial Hsend Hrecv Hne. unfold AddPeer. rewrite Hdial. cbn.
  rewrite Hsend. cbn. rewrite Hrecv. cbn.
  by rewrite bool_decide_eq_false_2 by done.
Qed.

Lemma after_attempts_frame k : ∀ a pid t,
  id (after_attempts k a pid t) = id t ∧
  (∀ key, key ≠ addr_string a →
     conns (after_attempts k a pid t) !! key = conns t !! key) ∧
  (conns (after_attempts k a pid t) !! addr_string a = conns t !! addr_string a ∨
   conns (after_attempts k a pid t) !! addr_string a = Some true).
Proof.
  induction k as [| k IH]; intros a pid t; cbn [after_attempts]; [by auto |].
  destruct (IH a pid (AddPeer a pid t).1) as (Hid & Hother & Hown).
  destruct (AddPeer_cases a pid t) as [Hid1 Hcases].
  assert (conns (AddPeer a pid t).1 = conns t ∨
          conns (AddPeer a pid t).1 = <[addr_string a := true]> (conns t)) as Hc.
  { destruct Hcases as [(? & ? & _ & _ & -> & _) | [(? & ? & _ & -> & _) |
                        (? & ? & ? & _ & _ & -> & _)]]; auto. }
  split_and!.
  - by rewrite Hid.
  - intros key Hkey. rewrite Hother by done.
    destruct Hc as [-> | ->]; [done | by rewrite lookup_insert_ne].
  - destruct Hown as [-> | ->]; [| by right].
    destruct Hc as [-> | ->]; [by left | right; apply lookup_insert_eq].
Qed.

(** X14: every call of [AddPeer] goes one of three ways.  The dial fails:
    that error is returned and nothing else happens.  The dial gives a
    connection that is then closed, the connection set staying as it was.
    Or the connection is handed to a started peer, the bitfield is the one
    message sent, the address is marked active and no error is returned.
    A dialed connection is never both closed and started, and never left
    without either; the local peer id is never changed. *)
Theorem AddPeer_closes_or_starts_every_connection a pid t :
  id (AddPeer a pid t).1 = id t ∧
  ((∃ w1 e,
      Net_Dial (addr_network a) (addr_string a) (world t) = (w1, inr e) ∧
      (AddPeer a pid t).2 = Some e ∧
      conns (AddPeer a pid t).1 = conns t ∧
      trace (AddPeer a pid t).1 =
        trace t ++ [Dialed (addr_network a) (addr_string a)]) ∨
   (∃ w1 c,
      Net_Dial (addr_network a) (addr_string a) (world t) = (w1, inl c) ∧
      conns (AddPeer a pid t).1 = conns t ∧
      trace (AddPeer a pid t).1 =
        trace t ++ [Dialed (addr_network a) (addr_string a); ConnClosed c]) ∨
   (∃ w1 c peer_id,
      Net_Dial (addr_network a) (addr_string a) (world t) = (w1, inl c) ∧
      (AddPeer a pid t).2 = None ∧
      conns (AddPeer a pid t).1 = <[addr_string a := true]> (conns t) ∧
      trace (AddPeer a pid t).1 =
        trace t ++ [Dialed (addr_network a) (addr_string a);
                    PeerStarted (makePeerConn c peer_id);
                    PeerSent (makePeerConn c peer_id)
                      (st_BitfieldMessage (world (AddPeer a pid t).1))])).
Proof. apply AddPeer_cases. Qed.

(** X15: when the dial and both halves of the handshake succeed and the
    peer answers with the infohash of the torrent, [AddPeer] returns no
    error, marks the address active whether or not it was reserved, starts
    a peer with the peer id of the answer (the expected peer id is not
    looked at) and sends it the bitfield; the connection is not closed. *)
Theorem AddPeer_admits_same_infohash a pid t c w1 w2 w3 h' :
  Net_Dial (addr_network a) (addr_string a) (world t) = (w1, inl c) →
  Handshake_Send (Handshake.mk (st_Infohash w1) (id t)) c w1 = (w2, None) →
  Handshake_Recv (Handshake.mk (st_Infohash w1) (id t)) c w2 = (w3, h', None) →
  Handshake.Infohash h' = st_Infohash w1 →
  AddPeer a pid t =
    (mkTorrent w3 (id t) (<[addr_string a := true]> (conns t))
       (trace t ++
        [Dialed (addr_network a) (addr_string a);
         PeerStarted (makePeerConn c (Handshake.PeerID h'));
         PeerSent (makePeerConn c (Handshake.PeerID h')) (st_BitfieldMessage w3)]),
     None).
Proof.
  intros Hdial Hsend Hrecv Heq. unfold AddPeer. rewrite Hdial. cbn.
  rewrite Hsend. cbn. rewrite Hrecv. cbn.
  rewrite bool_decide_eq_true_2 by done.
  unfold with_conns, onNewPeer, emit, with_world. cbn. by rewrite <- !app_assoc.
Qed.

(** X16: [PersistPeer] changes no entry of the connection set but the one
    of its own address, which it leaves as it was or sets to active; it
    removes no entry and keeps the local peer id. *)
Theorem PersistPeer_touches_own_entry_only a pid t t' :
  PersistPeer a pid t = Ret t' →
  id t' = id t ∧
  (∀ key, key ≠ addr_string a → conns t' !! key = conns t !! key) ∧
  (conns t' !! addr_string a = conns t !! addr_string a ∨
   conns t' !! addr_string a = Some true) ∧
  (∀ key, is_Some (conns t !! key) → is_Some (conns t' !! key)).
Proof.
  intros Hrun. unfold PersistPeer in Hrun.
  destruct (PersistPeer_loop_total 10 10 a pid t) as (k & _ & Hk); [lia | lia |].
  change (Z.of_nat 10) with 10 in Hk. rewrite Hk in Hrun. injection Hrun as <-.
  destruct (after_attempts_frame k a pid t) as (Hid & Hother & Hown).
  split_and!; [done | done | done |].
  intros key Hsome. destruct (decide (key = addr_string a)) as [-> | Hne].
  - destruct Hown as [-> | ->]; [done | eauto].
  - by rewrite Hother.
Qed.

(** X17: when the torrent is not done and the peer completes the handshake
    with another infohash, [PersistPeer] makes this one attempt and
    returns: the connection is closed, the address keeps the entry it had
    (a reserved address stays reserved), and no further attempt is made. *)
Theorem PersistPeer_gives_up_on_other_swarm a pid t c w1 w2 w3 h' :
  Done t = false →
  Net_Dial (addr_network a) (addr_string a) (world t) = (w1, inl c) →
  Handshake_Send (Handshake.mk (st_Infohash w1) (id t)) c w1 = (w2, None) →
  Handshake_Recv (Handshake.mk (st_Infohash w1) (id t)) c w2 = (w3, h', None) →
  Handshake.Infohash h' ≠ st_Infohash w1 →
  PersistPeer a pid t =
    Ret (mkTorrent w3 (id t) (conns t)
           ((trace t ++ [Dialed (addr_network a) (addr_string a)]) ++ [ConnClosed c])).
Proof.
  intros Hdone Hdial Hsend Hrecv Hne. unfold PersistPeer. cbn [PersistPeer_loop].
  rewrite Hdone. cbn [negb].
  by rewrite (AddPeer_mismatch a pid t c w1 w2 w3 h').
Qed.
End AdmissionFacts.

Lemma AddPeer_admits_same_infohash_witness :
  AddPeer Demo.same_swarm [4] Demo.t1 =
    (mkTorrent () [5] (<[ "b.i2p"%string := true ]> {[ "a.i2p"%string := true ]})
       [Dialed "i2p" "b.i2p"; PeerStarted (makePeerConn 2%nat [8]);
        PeerSent (makePeerConn 2%nat [8]) (NewWireMessage BitField [])],
     None).
Proof.
  exact (AddPeer_admits_same_infohash Demo.same_swarm [4] Demo.t1 2%nat
           () () () (Handshake.mk [1; 1; 1] [8]) eq_refl eq_refl eq_refl eq_refl).
Defined.

Lemma PersistPeer_touches_own_entry_only_witness :
  conns (after_attempts 10 Demo.dead [] Demo.t1) !! "a.i2p"%string = Some true ∧
  id (after_attempts 10 Demo.dead [] Demo.t1) = [5].
Proof.
  destruct (PersistPeer_touches_own_entry_only Demo.dead [] Demo.t1
              (after_attempts 10 Demo.dead [] Demo.t1))
    as (Hid & Hother & _); [by vm_compute |].
  split; [| exact Hid]. by rewrite Hother.
Defined.

Lemma PersistPeer_gives_up_on_other_swarm_witness :
  PersistPeer Demo.other_swarm [] Demo.t0 =
    Ret (mkTorrent () [5] ∅ [Dialed "i2p" "a.i2p"; ConnClosed 1%nat]).
Proof.
  by apply (PersistPeer_gives_up_on_other_swarm Demo.other_swarm [] Demo.t0 1%nat
              () () () (Handshake.mk [9; 9; 9] [7])).
Defined.

(** ** More on announcing *)

Section AnnounceMore.
Context {W Conn Tracker Peer : Type}.
Context `{!Network W Conn, !Storage W, !HandshakeIO W Conn,
          !Announcer W Tracker Peer}.

Implicit Types (t : Torrent W Conn) (a : Addr) (s : Swarm W Conn Tracker).

Lemma Announce_peers_id peers : ∀ t, id (Announce_peers peers t) = id t.
Proof.
  induction peers as [| p peers IH]; intros t; cbn [Announce_peers]; [done |].
  destruct (peer_Resolve p) as [a | e]; [| apply IH].
  destruct (_ || _); [apply IH |]. by rewrite IH.
Qed.

Lemma Announce_attempts (tr : Tracker) (event : string) t :
  ∃ evs, attempts_for_new_addresses t (Announce tr event t) evs.
Proof.
  unfold Announce. cbv zeta.
  destruct (tr_Announce _ _ _) as [w [peers | e]].
  - destruct (Announce_peers_announced peers (with_world w t))
      as (evs & Htr & Hd & Hlen & Hnd & Hsp & Hrest & _).
    exists evs. split_and!; try done. by rewrite Announce_peers_id.
  - exists []. unfold attempts_for_new_addresses. cbn. rewrite app_nil_r.
    split_and!; try done; [constructor | set_solver].
Qed.



(** A pass over candidates that are all local, known or unresolvable
    changes nothing. *)
Lemma Announce_peers_all_known peers : ∀ t,
  (∀ p a, p ∈ peers → peer_Resolve p = inl a →
     addr_string a = addr_string Net_Addr ∨ is_Some (conns t !! addr_string a)) →
  Announce_peers peers t = t.
Proof.
  induction peers as [| p peers IH]; intros t Hknown; cbn [Announce_peers]; [done |].
  assert (Announce_peers peers t = t) as Hrest.
  { apply IH. intros p0 a0 Hin. apply Hknown. by right. }
  destruct (peer_Resolve p) as [a | e] eqn:Hres; [| done].
  destruct (Hknown p a ltac:(by left) Hres) as [Hloc | Hsome].
  - by rewrite bool_decide_eq_true_2 by done.
  - unfold HasConn. rewrite (bool_decide_eq_true_2 (is_Some _)) by done.
    by rewrite orb_true_r.
Qed.

(** X18: an [Announce] leaves every address that is already in the
    connection set with the entry it has: an active peer is not turned
    back into a reserved one, and an address whose attempts all failed
    stays reserved, so that no later announce dials it again. *)
Theorem Announce_keeps_known_addresses (tr : Tracker) (event : string) t key b :
  conns t !! key = Some b →
  conns (Announce tr event t) !! key = Some b ∧
  key ∉ spawned (drop (length (trace t)) (trace (Announce tr event t))).
Proof.
  intros Hkey.
  destruct (Announce_attempts tr event t) as (evs & Htr & _ & _ & _ & _ & Hsp & Hrest).
  assert (key ∉ spawned evs) as Hnot.
  { intros Hin. destruct (Hsp _ Hin) as (_ & Hnone & _). congruence. }
  split; [by rewrite Hrest |].
  by rewrite Htr, drop_app_length.
Qed.

(** X19: a second pass over the same candidates adds nothing: no event,
    no entry. *)
Theorem Announce_peers_twice_adds_nothing (peers : list Peer) t :
  Announce_peers peers (Announce_peers peers t) = Announce_peers peers t.
Proof.
  apply Announce_peers_all_known. intros p a Hin Hres.
  destruct (decide (addr_string a = addr_string Net_Addr)) as [| Hloc]; [by left |].
  right.
  destruct (Announce_peers_announced peers t)
    as (evs & _ & _ & _ & _ & Hsp & Hrest & Hall).
  destruct (decide (addr_string a ∈ spawned evs)) as [Hin' | Hout].
  - destruct (Hsp _ Hin') as (_ & _ & ->). eauto.
  - rewrite (Hrest _ Hout).
    destruct (conns t !! addr_string a) as [b |] eqn:Hb; [eauto |].
    exfalso. apply Hout. by apply (Hall p a).
Qed.


End AnnounceMore.

Lemma Announce_keeps_known_addresses_witness :
  conns (Announce () "" Demo.t1) !! "a.i2p"%string = Some true.
Proof.
  by apply (Announce_keeps_known_addresses (Conn := nat) () "" Demo.t1
              "a.i2p"%string true).
Defined.


(** ** Pending pieces, the request channel and the request loop *)

Section RestFacts.
Context {W Conn Tracker St : Type}.
Context `{!Storage W, !StorageWrite W, !PeerStats Conn St}.

Implicit Types (s : Swarm W Conn Tracker) (t : Torrent W Conn).

(** X22: [storePiece] takes the piece out of the pending set whether or
    not the storage accepted it, leaves the other pending pieces alone,
    and flushes the storage after the write. *)
Theorem storePiece_unmarks_even_on_write_error (p : PieceData) s :
  pieceRequested (Index p) (storePiece p s) = false ∧
  (∀ idx, idx ≠ Index p →
     pending (storePiece p s) !! idx = pending s !! idx) ∧
  world (tor (storePiece p s)) = st_Flush (st_PutPiece p (world (tor s))).1 ∧
  conns (tor (storePiece p s)) = conns (tor s) ∧
  trace (tor (storePiece p s)) = trace (tor s).
Proof.
  unfold storePiece, pieceRequested.
  destruct (st_PutPiece p (world (tor s))) as [w err]. cbn. split_and!; try done.
  - apply bool_decide_eq_false_2. rewrite lookup_delete_eq. by intros [? ?].
  - intros idx Hne. by rewrite lookup_delete_ne.
Qed.

(** X23: [GetStatus] reports one entry per pending piece, in some order:
    marking a piece that was not pending adds the statistics of its peer
    once more, also when that peer is listed already, and taking a pending
    piece out removes one entry of its peer.  Connections without a
    pending piece are not reported. *)
Theorem GetStatus_lists_one_peer_per_pending_piece s (idx : Z) (c : PeerConn Conn) :
  length (Peers (GetStatus s)) = size (pending s) ∧
  (pending s !! idx = None →
   Peers (GetStatus (markPieceInProgress idx c s)) ≡ₚ
     pc_Stats c :: Peers (GetStatus s)) ∧
  (pending s !! idx = Some c →
   Peers (GetStatus s) ≡ₚ pc_Stats c :: Peers (GetStatus (cancelPiece idx s))).
Proof.
  unfold GetStatus, markPieceInProgress, cancelPiece. cbn. split_and!.
  - by rewrite length_fmap, length_map_to_list.
  - intros Hnone. by rewrite map_to_list_insert by done.
  - intros Hsome. by rewrite <- (map_to_list_delete _ _ _ Hsome).
Qed.

(** X24: marking a piece makes it requested and replaces the peer that
    was fetching it, if any; [cancelPiece] after it gives back the pending
    set without the piece; other pieces are not affected by either. *)
Theorem markPieceInProgress_then_cancelPiece s (idx : Z) (c : PeerConn Conn) :
  pieceRequested idx (markPieceInProgress idx c s) = true ∧
  pending (markPieceInProgress idx c s) !! idx = Some c ∧
  pieceRequested idx (cancelPiece idx (markPieceInProgress idx c s)) = false ∧
  pending (cancelPiece idx (markPieceInProgress idx c s)) = delete idx (pending s) ∧
  (∀ other, other ≠ idx →
     pieceRequested other (markPieceInProgress idx c s) = pieceRequested other s ∧
     pieceRequested other (cancelPiece idx s) = pieceRequested other s).
Proof.
  unfold pieceRequested, markPieceInProgress, cancelPiece. cbn. split_and!.
  - apply bool_decide_eq_true_2. rewrite lookup_insert_eq. eauto.
  - apply lookup_insert_eq.
  - apply bool_decide_eq_false_2. rewrite lookup_delete_eq. by intros [? ?].
  - apply delete_insert_eq.
  - intros other Hne. by rewrite lookup_insert_ne, lookup_delete_ne.
Qed.

(** X25: [Close] on a torrent whose request channel is there returns,
    flushes the storage and leaves the channel nil; from then on
    [onPieceRequest] drops every request, and a second [Close] panics on
    closing a nil channel. *)
Theorem Close_drops_later_requests_and_cannot_repeat s :
  piece_chan s ≠ None →
  ∃ s',
    Close s = Ret s' ∧ piece_chan s' = None ∧
    world (tor s') = st_Flush (world (tor s)) ∧ pending s' = pending s ∧
    (∀ c req, onPieceRequest c req s' = s') ∧
    Close s' = Panic.
Proof.
  intros Hchan. unfold Close. cbv zeta.
  destruct (piece_chan s) as [q |] eqn:Hq; [| done].
  eexists. split; [done |]. by cbn.
Qed.

Lemma serve_answer (ev : pieceEvent Conn) t :
  serve ev t = Ret (emit (answer (world t) ev) t).
Proof.
  unfold answer. case_bool_decide as Hlen.
  - destruct (st_GetPiece (ev_r ev) (world t)) as [p |] eqn:Hget.
    + by apply serve_answers.
    + apply serve_refuses. by right.
  - unfold serve. cbv zeta. by rewrite bool_decide_eq_false_2.
Qed.

(** X26: on any sequence of requests, [Run] returns without a panic; it
    acts once per request, in the order of the channel, on the connection
    the request came from, by closing it or by sending one "piece"
    message; it changes neither the connection set nor the world. *)
Theorem Run_answers_each_request_in_order (ch : list (pieceEvent Conn)) t :
  Run ch t =
    Ret (mkTorrent (world t) (id t) (conns t) (trace t ++ (answer (world t) <$> ch))) ∧
  Forall2 (λ ev e, e = PeerClosed (ev_c ev) ∨
                   ∃ d, e = PeerSent (ev_c ev) (NewWireMessage Piece d))
          ch (answer (world t) <$> ch).
Proof.
  split.
  - revert t. induction ch as [| ev ch IH]; intros t; cbn [Run fmap list_fmap].
    + rewrite app_nil_r. by destruct t.
    + rewrite serve_answer, bind_Ret, IH. cbn. by rewrite <- app_assoc.
  - induction ch as [| ev ch IH]; cbn [fmap list_fmap]; constructor; [| done].
    unfold answer. destruct (bool_decide _); [| by left].
    destruct (st_GetPiece _ _); [right; eauto | by left].
Qed.
End RestFacts.

Lemma Close_drops_later_requests_and_cannot_repeat_witness :
  ∃ s', Close DemoRest.s0 = Ret s' ∧
        onPieceRequest Demo.peer (PieceRequest.mk 3 0 4) s' = s' ∧
        Close s' = Panic.
Proof.
  destruct (Close_drops_later_requests_and_cannot_repeat DemoRest.s0)
    as (s' & Hclose & _ & _ & _ & Hdrop & Hagain); [done |].
  exists s'. split_and!; [exact Hclose | apply Hdrop | exact Hagain].
Defined.

Lemma GetStatus_lists_one_peer_per_pending_piece_witness :
  Peers (GetStatus (markPieceInProgress 4 Demo.peer DemoRest.s0)) ≡ₚ [[7]; [7]] ∧
  Peers (GetStatus DemoRest.s0) ≡ₚ
    [7] :: Peers (GetStatus (cancelPiece 3 DemoRest.s0)).
Proof.
  destruct (GetStatus_lists_one_peer_per_pending_piece
              (W := unit) (Tracker := unit) DemoRest.s0 4 Demo.peer)
    as (_ & Hmark & _).
  destruct (GetStatus_lists_one_peer_per_pending_piece
              (W := unit) (Tracker := unit) DemoRest.s0 3 Demo.peer)
    as (_ & _ & Hcancel).
  split; [by rewrite Hmark by done | by apply Hcancel].
Defined.

(** ** A scan that never ends *)

Lemma full_piece_facts (n : nat) :
  len (progress (full_piece n)) = Z.of_nat n ∧
  ∀ o, ¬ stride_missing (progress (full_piece n)) o.
Proof.
  cbn [full_piece progress]. split.
  - unfold len. by rewrite length_replicate.
  - intros o (_ & _ & Hlook). by apply lookup_replicate in Hlook as [? _].
Qed.

(** X4: on a status array of more than [2^32 - BlockSize] and less than
    [2^32] bytes in which no stride starts with [Missing], the scan of
    [nextOffset] steps past the last stride, [idx] wraps around to zero and
    the scan starts over on the unchanged array: the call does not return,
    whatever fuel the loop is given. *)
Theorem nextOffset_scan_wraps_and_never_returns p :
  2 ^ 32 - BlockSize < len (progress p) < 2 ^ 32 →
  (∀ o, ¬ stride_missing (progress p) o) →
  nextOffset p = OutOfFuel ∧
  ∀ fuel, scan_loop fuel (progress p) (u32 (len (progress p))) false 0 = OutOfFuel.
Proof.
  intros Hlen Hnone. split; [by apply nextOffset_diverges |].
  intros fuel. pose proof (len_nonneg (progress p)) as Hl.
  rewrite u32_small by lia.
  apply scan_loop_wraps; [apply Z.divide_0_r | lia | lia | lia | done].
Qed.

Lemma nextOffset_scan_wraps_and_never_returns_witness :
  nextOffset (full_piece (Z.to_nat (2 ^ 32 - 1))) = OutOfFuel.
Proof.
  destruct (full_piece_facts (Z.to_nat (2 ^ 32 - 1))) as [Hlen Hnone].
  rewrite Z2Nat.id in Hlen by lia.
  apply (nextOffset_scan_wraps_and_never_returns (full_piece (Z.to_nat (2 ^ 32 - 1))));
    [| exact Hnone].
  rewrite Hlen, BlockSize_val. lia.
Defined.

(** ** Further instances *)

Lemma blank_two_blocks_calls (n : nat) :
  Z.of_nat n = 2 * BlockSize →
  ∃ p1 p2,
    nextOffset (blank_piece n) = Ret (false, 0, p1) ∧
    nextOffset p1 = Ret (false, BlockSize, p2).
Proof.
  pose proof BlockSize_val as HB. intros Hn.
  pose proof (blank_piece_len n) as Hlen.
  assert (first_missing (progress (blank_piece n)) 0) as Hfirst0.
  { split; [| intros o' Hneg (_ & Hpos & _); lia].
    split_and!; [apply Z.divide_0_r | done |].
    cbn [blank_piece progress]. apply lookup_replicate_2. lia. }
  eexists _, _. split; [apply (nextOffset_claims _ 0); [lia | done | lia] |].
  apply nextOffset_claims; cbn [set_progress progress].
  - unfold len in *. rewrite set_range_length. lia.
  - split.
    + split_and!; [apply Z.divide_refl | lia |].
      rewrite set_range_lookup_out by lia.
      cbn [blank_piece progress]. apply lookup_replicate_2. lia.
    + intros o' Hlt ([k ->] & Hpos & Hlook).
      assert (k = 0) as -> by lia.
      rewrite set_range_lookup_in in Hlook; [done | lia |].
      unfold len in *. lia.
  - unfold len in *. rewrite set_range_length. lia.
Qed.

Lemma nextOffset_twice_distinct_strides_witness :
  ∃ p1 p2,
    nextOffset two_blocks = Ret (false, 0, p1) ∧
    nextOffset p1 = Ret (false, BlockSize, p2) ∧
    0 + BlockSize <= BlockSize.
Proof.
  assert (len (progress two_blocks) = 2 * BlockSize) as Hlen.
  { unfold two_blocks. rewrite blank_piece_len. apply Z2Nat.id.
    by rewrite BlockSize_val. }
  destruct (blank_two_blocks_calls (Z.to_nat (2 * BlockSize)))
    as (p1 & p2 & Hcall1 & Hcall2).
  { apply Z2Nat.id. by rewrite BlockSize_val. }
  exists p1, p2. split; [exact Hcall1 |]. split; [exact Hcall2 |].
  apply (nextOffset_twice_distinct_strides two_blocks false 0 p1 false BlockSize p2).
  - rewrite Hlen, BlockSize_val. lia.
  - exact Hcall1.
  - rewrite Hlen, BlockSize_val. lia.
  - exact Hcall2.
  - rewrite Hlen, BlockSize_val. lia.
Defined.

Lemma storePiece_unmarks_even_on_write_error_witness :
  st_PutPiece (mkPieceData 3 0 [1; 2; 3; 4]) () = ((), Some "disk full"%string) ∧
  pieceRequested 3 DemoRest.s0 = true ∧
  pieceRequested 3 (storePiece (mkPieceData 3 0 [1; 2; 3; 4]) DemoRest.s0) = false ∧
  pending (storePiece (mkPieceData 3 0 [1; 2; 3; 4]) DemoRest.s0) !! 4 =
    pending DemoRest.s0 !! 4.
Proof.
  destruct (storePiece_unmarks_even_on_write_error
              (mkPieceData 3 0 [1; 2; 3; 4]) DemoRest.s0) as (Hgone & Hother & _).
  split_and!; [reflexivity | reflexivity | exact Hgone | by apply Hother].
Defined.

Lemma markPieceInProgress_then_cancelPiece_witness :
  pieceRequested 4 (markPieceInProgress 4 Demo.peer DemoRest.s0) = true ∧
  pieceRequested 3 (markPieceInProgress 4 Demo.peer DemoRest.s0) =
    pieceRequested 3 DemoRest.s0.
Proof.
  destruct (markPieceInProgress_then_cancelPiece DemoRest.s0 4 Demo.peer)
    as (Hmark & _ & _ & _ & Hother).
  split; [exact Hmark |]. by apply (Hother 3).
Defined.
